(** * Lentilens: the frame sampler and the tilt-driven frame selection

    A shallow embedding of [extractFrames] and of the [animate] tick of the
    lenticular viewer (src/index.tsx, the version that resizes frames to at
    most 1024 pixels and waits at most 200 ms for a seek).

    Numbers.  A JavaScript [number] is modelled by an exact rational, and the
    three non-finite values are added where the code tests for them (the
    reported duration of a video).  The rounding of binary64 arithmetic is
    not modelled: every arithmetic statement below is a statement about the
    exact value of the expression the code evaluates.

    Effects.  The sampler runs in a small state-and-exception monad over a
    [World] that records whether the temporary video element is in the
    document and the log of the effects performed so far.  What the browser
    decides (whether a context exists, whether the media loads, when the
    [seeked] event fires, which picture is visible, whether the encoder
    yields a blob, whether an operation throws) is an input of the model. *)

From Stdlib Require Import ZArith QArith Qround Qminmax Qpower Qabs.
From Stdlib Require Import List Bool Arith Lia Lqa.
Import ListNotations.

Open Scope Q_scope.

(** ** JavaScript numbers and the [Math] functions the code calls *)

Module JS.

Inductive number : Type :=
| NaN
| PosInf
| NegInf
| Fin (q : Q).

(** [Number.isFinite(x)] *)
Definition isFinite (x : number) : bool :=
  match x with
  | Fin _ => true
  | _ => false
  end.

(** [x || d]: the falsy numbers are [NaN] and zero. *)
Definition or_else (x : number) (d : Q) : number :=
  match x with
  | NaN => Fin d
  | Fin q => if Qeq_bool q 0 then Fin d else x
  | _ => x
  end.

(** [x > y] for a finite [y]; every comparison with [NaN] is false. *)
Definition gt (x : number) (y : Q) : bool :=
  match x with
  | NaN => false
  | PosInf => true
  | NegInf => false
  | Fin q => negb (Qle_bool q y)
  end.

(** The rational behind a number that passed [isFinite]. *)
Definition finite_value (x : number) : Q :=
  match x with
  | Fin q => q
  | _ => 0
  end.

(** [a > b] on finite numbers. *)
Definition gtb (a b : Q) : bool := negb (Qle_bool a b).

Definition Math_floor (x : Q) : Z := Qfloor x.

(** [Math.round]: the nearest integer, a tie going up. *)
Definition Math_round (x : Q) : Z := Qfloor (x + (1 # 2)).

Definition Math_min (a b : Z) : Z := Z.min a b.
Definition Math_max (a b : Z) : Z := Z.max a b.

(** [a[i]]: [undefined] outside the array. *)
Definition index {A : Type} (a : list A) (i : Z) : option A :=
  if (i <? 0)%Z then None else nth_error a (Z.to_nat i).

End JS.

(** ** The frame sampler: [extractFrames] *)

Module Sampler.

(** What the video element reports once its metadata is available. *)
Record Video : Type := mkVideo {
  videoWidth : Z;
  videoHeight : Z;
  duration : JS.number
}.

Record Canvas : Type := mkCanvas {
  canvas_width : Z;
  canvas_height : Z
}.

Definition maxDim : Q := 1024.

(** The body of [video.onloadedmetadata] before the two floors: the
    values of [width] and [height] after the scaling branch. *)
Definition scaled (v : Video) : Q * Q :=
  let width := inject_Z (videoWidth v) in
  let height := inject_Z (videoHeight v) in
  if JS.gtb width maxDim || JS.gtb height maxDim then
    if JS.gtb width height then
      (maxDim, (height / width) * maxDim)
    else
      ((width / height) * maxDim, maxDim)
  else (width, height).

Definition onloadedmetadata (v : Video) : Canvas :=
  let (width, height) := scaled v in
  {| canvas_width := JS.Math_floor width;
     canvas_height := JS.Math_floor height |}.

(** The first four lines of [video.onloadeddata]. *)
Definition safeDuration (v : Video) : Q :=
  let duration := JS.or_else (duration v) 0 in
  if JS.isFinite duration && JS.gt duration 0
  then JS.finite_value duration
  else 3.

Definition processDuration (v : Video) : Q := Qmin (safeDuration v) 5.

Definition interval (v : Video) (frameCount : Z) : Q :=
  processDuration v / inject_Z frameCount.

(** [const time = i * interval] *)
Definition time (v : Video) (frameCount : Z) (i : nat) : Q :=
  inject_Z (Z.of_nat i) * interval v frameCount.

(** The argument of [onProgress] in iteration [i]. *)
Definition percent (frameCount : Z) (i : nat) : Z :=
  JS.Math_round
    (((inject_Z (Z.of_nat i) + 1) / inject_Z frameCount) * 100).

(** *** The world the sampler acts on *)

(** A thrown value. *)
Inductive exn : Type := Exn (id : nat).

Inductive reason : Type :=
| NoCanvasContext          (* "Could not get canvas context" *)
| LoadError                (* "Video format not supported or load error." *)
| Caught (err : exn).      (* reject(err) *)

(** An encoded still image: the raster it was taken from and the picture
    the video element showed when it was drawn.  The blob URL pushed on
    [frames] is identified with the blob it names. *)
Record Blob : Type := mkBlob {
  blob_width : Z;
  blob_height : Z;
  blob_picture : nat
}.

Record FrameSet : Type := mkFrameSet {
  frames : list Blob;
  width : Z;
  height : Z
}.

Inductive settlement : Type :=
| Resolved (result : FrameSet)
| Rejected (why : reason).

Inductive effect : Type :=
| AppendChild                          (* document.body.appendChild(video) *)
| CreateObjectURL                      (* URL.createObjectURL(videoFile) *)
| RemoveChild                          (* document.body.removeChild(video) *)
| RevokeObjectURL                      (* URL.revokeObjectURL(fileUrl) *)
| SetCurrentTime (t : Q)               (* video.currentTime = t *)
| SeekWait (ms : nat) (seeked : bool)  (* the awaited promise resolved *)
| DrawImage (picture : nat) (w h : Z)  (* clearRect, then drawImage *)
| OnProgress (p : Z)                   (* onProgress(p) *)
| Settle (s : settlement).             (* resolve(...) or reject(...) *)

Record World : Type := mkWorld {
  in_document : bool;
  log : list effect
}.

Definition initial : World := {| in_document := false; log := [] |}.

(** *** The monad: state, plus a thrown exception *)

Inductive result (A : Type) : Type :=
| Ok (a : A)
| Throw (err : exn).
Arguments Ok {A} a.
Arguments Throw {A} err.

Definition M (A : Type) : Type := World -> World * result A.

Definition ret {A : Type} (a : A) : M A := fun w => (w, Ok a).

Definition bind {A B : Type} (m : M A) (f : A -> M B) : M B :=
  fun w =>
    match m w with
    | (w', Ok a) => f a w'
    | (w', Throw err) => (w', Throw err)
    end.

Definition throw {A : Type} (err : exn) : M A := fun w => (w, Throw err).

(** [try { body } catch (err) { handler }] *)
Definition try_catch {A : Type} (body : M A) (handler : exn -> M A) : M A :=
  fun w =>
    match body w with
    | (w', Ok a) => (w', Ok a)
    | (w', Throw err) => handler err w'
    end.

Definition emit (e : effect) : M unit :=
  fun w => ({| in_document := in_document w; log := log w ++ [e] |}, Ok tt).

Declare Scope sampler_scope.
Delimit Scope sampler_scope with sampler.
Notation "x <- c1 ;; c2" := (bind c1 (fun x => c2))
  (at level 61, c1 at next level, right associativity) : sampler_scope.
Notation "c1 ;; c2" := (bind c1 (fun _ => c2))
  (at level 61, right associativity) : sampler_scope.
Open Scope sampler_scope.

(** *** What the browser decides in one iteration *)

Inductive stage : Type :=
| AtSeek        (* video.currentTime = time *)
| AtDraw        (* ctx.clearRect / ctx.drawImage *)
| AtPush        (* frames.push(URL.createObjectURL(blob)) *)
| AtProgress.   (* onProgress(...) *)

Definition stage_eqb (a b : stage) : bool :=
  match a, b with
  | AtSeek, AtSeek | AtDraw, AtDraw
  | AtPush, AtPush | AtProgress, AtProgress => true
  | _, _ => false
  end.

Record iter_env : Type := mkIterEnv {
  fault : option (stage * exn);   (* the operation that throws, if any *)
  seeked_after : option nat;      (* ms until [seeked] fires; never: None *)
  visible : nat;                  (* the picture shown when the wait ends *)
  encoded : bool                  (* toBlob calls back with a blob *)
}.

Definition may_throw (e : iter_env) (s : stage) : M unit :=
  match fault e with
  | Some (s', err) => if stage_eqb s s' then throw err else ret tt
  | None => ret tt
  end.

(** The race of [setTimeout(() => seekResolve(), 200)] against the
    [seeked] listener: the elapsed time and whether [seeked] won. *)
Definition seek_timeout : nat := 200.

Definition seek_wait (arrival : option nat) : nat * bool :=
  match arrival with
  | Some ms => if ms <? seek_timeout then (ms, true) else (seek_timeout, false)
  | None => (seek_timeout, false)
  end.

Definition set_currentTime (e : iter_env) (t : Q) : M unit :=
  may_throw e AtSeek ;; emit (SetCurrentTime t).

Definition await_seeked (e : iter_env) : M unit :=
  let (ms, seeked) := seek_wait (seeked_after e) in
  emit (SeekWait ms seeked).

Definition drawImage (e : iter_env) (c : Canvas) : M unit :=
  may_throw e AtDraw ;;
  emit (DrawImage (visible e) (canvas_width c) (canvas_height c)).

(** The still image encoded from the canvas. *)
Definition snapshot (e : iter_env) (c : Canvas) : Blob :=
  {| blob_width := canvas_width c;
     blob_height := canvas_height c;
     blob_picture := visible e |}.

Definition toBlob (e : iter_env) (c : Canvas) : M (option Blob) :=
  ret (if encoded e then Some (snapshot e c) else None).

Definition createObjectURL (e : iter_env) (b : Blob) : M Blob :=
  may_throw e AtPush ;; ret b.

Definition call_onProgress (e : iter_env) (p : Z) : M unit :=
  may_throw e AtProgress ;; emit (OnProgress p).

(** *** [extractFrames] *)

Section Run.

Variable frameCount : Z.
Variable onProgress : bool.          (* was a callback passed? *)
Variable env : nat -> iter_env.

(** The body of the [for] loop. *)
Definition iteration (v : Video) (c : Canvas)
           (frames : list Blob) (i : nat) : M (list Blob) :=
  let e := env i in
  set_currentTime e (time v frameCount i) ;;
  await_seeked e ;;
  drawImage e c ;;
  blob <- toBlob e c ;;
  frames' <- match blob with
             | Some b => url <- createObjectURL e b ;; ret (frames ++ [url])
             | None => ret frames
             end ;;
  (if onProgress
   then call_onProgress e (percent frameCount i)
   else ret tt) ;;
  ret frames'.

(** [for (let i = i0; i < frameCount; i++)] with [todo] iterations left. *)
Fixpoint for_loop (v : Video) (c : Canvas) (todo : nat) (i : nat)
         (frames : list Blob) : M (list Blob) :=
  match todo with
  | O => ret frames
  | S todo' =>
      frames' <- iteration v c frames i ;;
      for_loop v c todo' (S i) frames'
  end.

Definition removeChild : M unit :=
  fun w => ({| in_document := false; log := log w ++ [RemoveChild] |}, Ok tt).

Definition appendChild : M unit :=
  fun w => ({| in_document := true; log := log w ++ [AppendChild] |}, Ok tt).

Definition cleanup : M unit :=
  fun w =>
    ((if in_document w then removeChild else ret tt) ;;
     emit RevokeObjectURL) w.

Definition resolve (r : FrameSet) : M unit := emit (Settle (Resolved r)).
Definition reject (why : reason) : M unit := emit (Settle (Rejected why)).

Definition onerror : M unit :=
  cleanup ;; reject LoadError.

Definition onloadeddata (v : Video) (c : Canvas) : M unit :=
  try_catch
    (frames <- for_loop v c (Z.to_nat frameCount) 0 [] ;;
     let finalWidth := canvas_width c in
     let finalHeight := canvas_height c in
     cleanup ;;
     resolve {| frames := frames;
                width := finalWidth;
                height := finalHeight |})
    (fun err => cleanup ;; reject (Caught err)).

(** What becomes of the media after [video.load()]. *)
Inductive media : Type :=
| Unsupported                (* the [error] event fires *)
| Decoded (v : Video).       (* [loadedmetadata], then [loadeddata] *)

Definition extractFrames (ctx : bool) (m : media) : M unit :=
  if negb ctx then reject NoCanvasContext
  else
    appendChild ;;
    emit CreateObjectURL ;;
    match m with
    | Unsupported => onerror
    | Decoded v => onloadeddata v (onloadedmetadata v)
    end.

Definition run (ctx : bool) (m : media) : World :=
  fst (extractFrames ctx m initial).

End Run.

(** *** Reading a log *)

(** The promise keeps its first settlement. *)
Fixpoint settled (l : list effect) : option settlement :=
  match l with
  | [] => None
  | Settle s :: _ => Some s
  | _ :: l' => settled l'
  end.

Fixpoint seeks (l : list effect) : list Q :=
  match l with
  | [] => []
  | SetCurrentTime t :: l' => t :: seeks l'
  | _ :: l' => seeks l'
  end.

Fixpoint reports (l : list effect) : list Z :=
  match l with
  | [] => []
  | OnProgress p :: l' => p :: reports l'
  | _ :: l' => reports l'
  end.



(** The effects of the loop body, as opposed to set-up, clean-up and
    settlement. *)
Definition is_loop_effect (e : effect) : bool :=
  match e with
  | SetCurrentTime _ | SeekWait _ _ | DrawImage _ _ _ | OnProgress _ => true
  | _ => false
  end.

(** *** What a run is expected to log, read off the environment *)

Definition extend (w : World) (l : list effect) : World :=
  {| in_document := in_document w; log := log w ++ l |}.

Section Expected.

Variable frameCount : Z.
Variable onProgress : bool.
Variable env : nat -> iter_env.

(** The exception that ends iteration [i], if any: a fault at a stage
    the iteration does not reach is never raised. *)
Definition throws (i : nat) : option exn :=
  match fault (env i) with
  | Some (AtSeek, err) => Some err
  | Some (AtDraw, err) => Some err
  | Some (AtPush, err) => if encoded (env i) then Some err else None
  | Some (AtProgress, err) => if onProgress then Some err else None
  | None => None
  end.

(** The effects of an iteration that runs to its end. *)
Definition iteration_log (v : Video) (c : Canvas) (i : nat) : list effect :=
  [SetCurrentTime (time v frameCount i);
   SeekWait (fst (seek_wait (seeked_after (env i))))
            (snd (seek_wait (seeked_after (env i))));
   DrawImage (visible (env i)) (canvas_width c) (canvas_height c)]
  ++ (if onProgress then [OnProgress (percent frameCount i)] else []).

Definition iteration_frames (c : Canvas) (i : nat) : list Blob :=
  if encoded (env i) then [snapshot (env i) c] else [].

End Expected.

(** The sampling window as the specification words it. *)
Definition spec_window (reported : JS.number) : Q :=
  let finite_positive :=
    match reported with
    | JS.Fin d => if Qlt_le_dec 0 d then d else 3
    | _ => 3
    end in
  if Qlt_le_dec 5 finite_positive then 5 else finite_positive.

End Sampler.

(** ** The viewer: one [animate] tick *)

Module Viewer.

Section Tick.

Variable Texture : Type.

Record Uniforms : Type := mkUniforms {
  uTilt : Q;
  uTexture : option Texture
}.

Definition smooth (currentTilt targetTilt : Q) : Q :=
  currentTilt + (targetTilt - currentTilt) * 0.1.

Definition frameIndex (newTilt : Q) (length : Z) : Z :=
  let normTilt := (newTilt + 1) / 2 in
  JS.Math_min
    (length - 1)
    (JS.Math_max 0 (JS.Math_floor (normTilt * inject_Z length))).

(** The uniforms after one tick; [tiltRef] is the raw tilt. *)
Definition animate (textures : list Texture) (tiltRef : Q)
           (u : Uniforms) : Uniforms :=
  match textures with
  | [] => u
  | _ :: _ =>
      let targetTilt := tiltRef in
      let currentTilt := uTilt u in
      let newTilt := smooth currentTilt targetTilt in
      {| uTilt := newTilt;
         uTexture :=
           JS.index textures
                    (frameIndex newTilt (Z.of_nat (List.length textures))) |}
  end.

(** [n] ticks with the raw tilt held at [tiltRef]. *)
Fixpoint ticks (n : nat) (textures : list Texture) (tiltRef : Q)
         (u : Uniforms) : Uniforms :=
  match n with
  | O => u
  | S n' => animate textures tiltRef (ticks n' textures tiltRef u)
  end.

End Tick.

Arguments uTilt {Texture} _.
Arguments uTexture {Texture} _.
Arguments mkUniforms {Texture} _ _.
Arguments animate {Texture} _ _ _.
Arguments ticks {Texture} _ _ _ _.




End Viewer.

(** ** Tilt input: the orientation and pointer handlers of the viewer *)

Module Input.

(** [Math.min(bound, x)] for a finite [bound]. *)
Definition min_with (bound : Q) (x : JS.number) : JS.number :=
  match x with
  | JS.NaN => JS.NaN
  | JS.PosInf => JS.Fin bound
  | JS.NegInf => JS.NegInf
  | JS.Fin q => JS.Fin (Qmin bound q)
  end.

(** [Math.max(bound, x)] for a finite [bound]. *)
Definition max_with (bound : Q) (x : JS.number) : JS.number :=
  match x with
  | JS.NaN => JS.NaN
  | JS.PosInf => JS.PosInf
  | JS.NegInf => JS.Fin bound
  | JS.Fin q => JS.Fin (Qmax bound q)
  end.

(** [x / d] for a finite positive [d]. *)
Definition div_by (x : JS.number) (d : Q) : JS.number :=
  match x with
  | JS.Fin q => JS.Fin (q / d)
  | other => other
  end.

(** [e.gamma || 0]; [gamma] is [null] when the sensor has no reading. *)
Definition gamma_or_zero (gamma : option JS.number) : JS.number :=
  match gamma with
  | None => JS.Fin 0
  | Some g => JS.or_else g 0
  end.

(** The clamp of both orientation handlers, for their [maxTilt]. *)
Definition clamped (maxTilt : Q) (gamma : option JS.number) : JS.number :=
  let gamma := gamma_or_zero gamma in
  max_with (- maxTilt) (min_with maxTilt gamma).

(** [handleOrientation] of the viewer: the value stored in [tiltRef]. *)
Definition handleOrientation (gamma : option JS.number) : JS.number :=
  let maxTilt := 45 in
  let val := clamped maxTilt gamma in
  div_by val maxTilt.

(** [handleMouseMove] of the viewer: the value stored in [tiltRef]. *)
Definition handleMouseMove (clientX innerWidth : Q) : Q :=
  let x := clientX / innerWidth in
  (x * 2) - 1.

(** *** A viewing session: input events, texture arrival and ticks *)

Section Session.

Variable Texture : Type.

Inductive event : Type :=
| Orientation (gamma : option JS.number)    (* deviceorientation *)
| MouseMove (clientX innerWidth : Q)        (* mousemove *)
| Loaded (textures : list Texture)          (* Promise.all(...).then *)
| AnimationFrame.                           (* requestAnimationFrame *)

Record Refs : Type := mkRefs {
  tiltRef : Q;
  texturesRef : list Texture;
  uniforms : Viewer.Uniforms Texture
}.

(** [useRef(0)], [useRef([])], and the uniforms the material starts with. *)
Definition mounted : Refs :=
  {| tiltRef := 0;
     texturesRef := [];
     uniforms := Viewer.mkUniforms 0 None |}.

Definition dispatch (s : Refs) (e : event) : Refs :=
  match e with
  | Orientation gamma =>
      {| tiltRef := JS.finite_value (handleOrientation gamma);
         texturesRef := texturesRef s;
         uniforms := uniforms s |}
  | MouseMove clientX innerWidth =>
      {| tiltRef := handleMouseMove clientX innerWidth;
         texturesRef := texturesRef s;
         uniforms := uniforms s |}
  | Loaded textures =>
      {| tiltRef := tiltRef s;
         texturesRef := textures;
         uniforms := uniforms s |}
  | AnimationFrame =>
      {| tiltRef := tiltRef s;
         texturesRef := texturesRef s;
         uniforms := Viewer.animate (texturesRef s) (tiltRef s) (uniforms s) |}
  end.

Definition play (events : list event) (s : Refs) : Refs :=
  fold_left dispatch events s.

(** The pointer is over the window, whose width is positive. *)
Definition pointer_inside (e : event) : Prop :=
  match e with
  | MouseMove clientX innerWidth =>
      0 <= clientX /\ clientX <= innerWidth /\ 0 < innerWidth
  | _ => True
  end.

End Session.

Arguments Orientation {Texture} _.
Arguments MouseMove {Texture} _ _.
Arguments Loaded {Texture} _.
Arguments AnimationFrame {Texture}.
Arguments tiltRef {Texture} _.
Arguments texturesRef {Texture} _.
Arguments uniforms {Texture} _.
Arguments mkRefs {Texture} _ _ _.
Arguments mounted {Texture}.
Arguments dispatch {Texture} _ _.
Arguments play {Texture} _ _.
Arguments pointer_inside {Texture} _.

End Input.

(** ** The fragment shader: cover mapping and ridges *)

Module Shader.

Definition vec2 : Type := (Q * Q)%type.

(** The [scale] vector of [getCoverUV]. *)
Definition coverScale (resolution texResolution : vec2) : vec2 :=
  let sAspect := fst resolution / snd resolution in
  let tAspect := fst texResolution / snd texResolution in
  if JS.gtb sAspect tAspect
  then (1, tAspect / sAspect)
  else (sAspect / tAspect, 1).

Definition getCoverUV (uv resolution texResolution : vec2) : vec2 :=
  let scale := coverScale resolution texResolution in
  ((fst uv - 0.5) * fst scale + 0.5,
   (snd uv - 0.5) * snd scale + 0.5).

(** [fract(x)] *)
Definition fract (x : Q) : Q := x - inject_Z (Qfloor x).

Definition ridgeWidth : Q := 10.

(** [localX] of [main], from [uv.x] and [uResolution.x]. *)
Definition localX (uv_x resolution_x : Q) : Q :=
  let totalRidges := resolution_x / ridgeWidth in
  let ridgePos := uv_x * totalRidges in
  fract ridgePos.

Definition sawtooth (localX : Q) : Q := localX * 2 - 1.

Definition abbStrength (sawtooth : Q) : Q :=
  0.008 * (0.5 + 0.5 * Qabs sawtooth).

(** [updateSize]: the value given to [uResolution]. *)
Definition updateSize (clientWidth clientHeight devicePixelRatio : Q) : vec2 :=
  let dpr := Qmin devicePixelRatio 2 in
  (clientWidth * dpr, clientHeight * dpr).

End Shader.

(** ** Texture preloading and disposal *)

Module Textures.

Section Preload.

Variable Source : Type.     (* a frame's blob URL *)
Variable Texture : Type.

(** [Promise.all]: fulfilled with every value, in order, once every load
    has called back; a load that never calls back ([None]: the loader was
    given no error callback) leaves it pending. *)
Fixpoint all (loads : list (option Texture)) : option (list Texture) :=
  match loads with
  | [] => Some []
  | None :: _ => None
  | Some t :: rest =>
      match all rest with
      | Some ts => Some (t :: ts)
      | None => None
      end
  end.

Record Refs : Type := mkRefs {
  texturesRef : list Texture;
  disposed : list Texture            (* the calls of [dispose], in order *)
}.

Definition dispose_all (r : Refs) : Refs :=
  {| texturesRef := texturesRef r;
     disposed := disposed r ++ texturesRef r |}.

Inductive step : Type :=
| Effect (frames : list Source)      (* the effect body runs *)
| Fulfilled (loaded : list Texture)  (* the [then] callback runs *)
| Cleanup.                           (* the effect's cleanup runs *)

Definition run_step (r : Refs) (s : step) : Refs :=
  match s with
  | Effect [] => r
  | Effect (_ :: _) =>
      {| texturesRef := []; disposed := disposed (dispose_all r) |}
  | Fulfilled loaded =>
      {| texturesRef := loaded; disposed := disposed r |}
  | Cleanup => dispose_all r
  end.

Definition lifecycle (steps : list step) : Refs :=
  fold_left run_step steps {| texturesRef := []; disposed := [] |}.

(** What the [then] callback receives for [frames], if it ever runs. *)
Definition preload (loader : Source -> option Texture)
           (frames : list Source) : option (list Texture) :=
  all (map loader frames).

End Preload.

Arguments all {Texture} _.
Arguments texturesRef {Texture} _.
Arguments disposed {Texture} _.
Arguments mkRefs {Texture} _ _.
Arguments dispose_all {Texture} _.
Arguments Effect {Source Texture} _.
Arguments Fulfilled {Source Texture} _.
Arguments Cleanup {Source Texture}.
Arguments run_step {Source Texture} _ _.
Arguments lifecycle {Source Texture} _.
Arguments preload {Source Texture} _ _.

End Textures.

(** ** The application: upload, permission and the gate to the viewer *)

Module App.

Record State : Type := mkState {
  frames : list Sampler.Blob;
  videoDims : option (Z * Z);
  isProcessing : bool;
  progress : Z;
  viewMode : bool;
  permissionGranted : bool
}.

(** The six [useState] initial values. *)
Definition initial : State :=
  {| frames := []; videoDims := None; isProcessing := false;
     progress := 0; viewMode := false; permissionGranted := false |}.


















End App.

(** ** The first version of the viewer: tilt mapped straight to an index *)

Module Legacy.

Definition handleOrientation (gamma : option JS.number) (length : Z) : Z :=
  let maxTilt := 30 in
  let clampedVal := JS.finite_value (Input.clamped maxTilt gamma) in
  let normalized := (clampedVal + maxTilt) / (2 * maxTilt) in
  JS.Math_min (length - 1) (JS.Math_floor (normalized * inject_Z length)).

Definition handleMouseMove (clientX innerWidth : Q) (length : Z) : Z :=
  let normalized := clientX / innerWidth in
  JS.Math_min (length - 1) (JS.Math_floor (normalized * inject_Z length)).

End Legacy.

(** ** Time spent waiting for seeks *)

Module Timing.

(** The milliseconds a log spent in seek waits. *)
Fixpoint waited (l : list Sampler.effect) : nat :=
  match l with
  | [] => 0
  | Sampler.SeekWait ms _ :: l' => ms + waited l'
  | _ :: l' => waited l'
  end.

End Timing.

(** ** Facts about the number model *)

Module JSFacts.

Lemma inject_Z_pos (n : Z) : (1 <= n)%Z -> 0 < inject_Z n.
Proof.
  intros H. change 0 with (inject_Z 0). rewrite <- Zlt_Qlt. lia.
Qed.

Lemma floor_unique (x : Q) (k : Z) :
  Qfloor x = k <-> inject_Z k <= x /\ x < inject_Z (k + 1).
Proof.
  split.
  - intros <-. split; [apply Qfloor_le | apply Qlt_floor].
  - intros [Hlo Hhi].
    pose proof (Qfloor_le x) as H1. pose proof (Qlt_floor x) as H2.
    assert (inject_Z (Qfloor x) < inject_Z (k + 1)) as A by lra.
    assert (inject_Z k < inject_Z (Qfloor x + 1)) as B by lra.
    rewrite <- Zlt_Qlt in A, B. clear - A B. lia.
Qed.

Lemma inject_Z_nonneg (n : Z) : (0 <= n)%Z -> 0 <= inject_Z n.
Proof.
  intros H. change 0 with (inject_Z 0). rewrite <- Zle_Qle. exact H.
Qed.

Lemma gtb_true (a b : Q) : JS.gtb a b = true <-> b < a.
Proof.
  unfold JS.gtb. rewrite negb_true_iff, <- not_true_iff_false, Qle_bool_iff.
  split; [apply Qnot_le_lt | apply Qlt_not_le].
Qed.

Lemma gtb_false (a b : Q) : JS.gtb a b = false <-> a <= b.
Proof.
  unfold JS.gtb. rewrite negb_false_iff. apply Qle_bool_iff.
Qed.

End JSFacts.

(** ** Facts about the viewer *)

Module ViewerFacts.
Import Viewer JSFacts.

Lemma half_scaled (t nq : Q) : (t + 1) / 2 * nq == (1 # 2) * ((t + 1) * nq).
Proof. field. Qed.

Lemma scaled_tilt_le (t1 t2 : Q) (n : Z) :
  (0 <= n)%Z -> t1 <= t2 ->
  (t1 + 1) / 2 * inject_Z n <= (t2 + 1) / 2 * inject_Z n.
Proof.
  intros Hn Ht. rewrite !half_scaled.
  assert (0 <= inject_Z n) as Hq
      by (change 0 with (inject_Z 0); rewrite <- Zle_Qle; exact Hn).
  assert ((t1 + 1) * inject_Z n <= (t2 + 1) * inject_Z n)
    by (apply Qmult_le_compat_r; lra).
  lra.
Qed.

Lemma frameIndex_mono (t1 t2 : Q) (n : Z) :
  (0 <= n)%Z -> t1 <= t2 -> (frameIndex t1 n <= frameIndex t2 n)%Z.
Proof.
  intros Hn Ht. unfold frameIndex, JS.Math_min, JS.Math_max, JS.Math_floor.
  pose proof (Qfloor_resp_le _ _ (scaled_tilt_le t1 t2 n Hn Ht)) as H.
  clear - H. lia.
Qed.

Lemma frameIndex_range (t : Q) (n : Z) :
  (1 <= n)%Z -> (0 <= frameIndex t n <= n - 1)%Z.
Proof.
  intros Hn. unfold frameIndex, JS.Math_min, JS.Math_max. lia.
Qed.











(** *** The frame shown by a tick *)

Section Selection.

Context {Texture : Type}.

Lemma animate_tilt (tex : Texture) (rest : list Texture)
      (tiltRef : Q) (u : Uniforms Texture) :
  uTilt (animate (tex :: rest) tiltRef u) = smooth (uTilt u) tiltRef.
Proof. reflexivity. Qed.

Lemma animate_texture (tex : Texture) (rest : list Texture)
      (tiltRef : Q) (u : Uniforms Texture) :
  let textures := tex :: rest in
  let u' := animate textures tiltRef u in
  uTexture u' =
  nth_error textures
            (Z.to_nat (frameIndex (uTilt u') (Z.of_nat (length textures)))).
Proof.
  cbv zeta. rewrite animate_tilt.
  set (textures := tex :: rest).
  assert (1 <= Z.of_nat (length textures))%Z as Hn by (simpl length; lia).
  pose proof (frameIndex_range (smooth (uTilt u) tiltRef) _ Hn) as [H0 _].
  unfold animate, textures at 1. cbv zeta. cbn [uTexture].
  fold textures. unfold JS.index.
  destruct (Z.ltb_spec (frameIndex (smooth (uTilt u) tiltRef)
                                   (Z.of_nat (length textures))) 0);
    [lia | reflexivity].
Qed.


End Selection.


(** C3: the mapping from tilt to frame index is monotonic on [-1,1]. *)
Theorem tilt_mapping_monotonic (frameCount : Z) (t1 t2 : Q) :
  (1 <= frameCount)%Z ->
  -1 <= t1 -> t1 < t2 -> t2 <= 1 ->
  (frameIndex t1 frameCount <= frameIndex t2 frameCount)%Z.
Proof.
  intros Hn _ Hlt _. apply frameIndex_mono; [lia | lra].
Qed.

Lemma tilt_mapping_monotonic_witness :
  (frameIndex (-0.5) 45 <= frameIndex 0.25 45)%Z.
Proof.
  apply (tilt_mapping_monotonic 45 (-0.5) 0.25);
    [lia | vm_compute; discriminate | reflexivity | vm_compute; discriminate].
Defined.



(** *** Smoothing *)

Section Smoothing.

Context {Texture : Type}.
Variable tex : Texture.
Variable rest : list Texture.

Let textures := tex :: rest.

Lemma ticks_tilt (n : nat) (tiltRef : Q) (u : Uniforms Texture) :
  uTilt (ticks (S n) textures tiltRef u)
  = smooth (uTilt (ticks n textures tiltRef u)) tiltRef.
Proof. reflexivity. Qed.

(** A tick closes a tenth of the gap to the raw tilt. *)
Lemma smooth_gap (s raw : Q) : raw - smooth s raw == 0.9 * (raw - s).
Proof. unfold smooth. ring. Qed.

Lemma ticks_gap (n : nat) (raw : Q) (u : Uniforms Texture) :
  raw - uTilt (ticks n textures raw u)
  == 0.9 ^ Z.of_nat n * (raw - uTilt u).
Proof.
  induction n as [| n IH].
  - simpl. ring.
  - rewrite ticks_tilt, smooth_gap, IH.
    rewrite Nat2Z.inj_succ. unfold Z.succ.
    rewrite Qpower_plus by discriminate.
    change (0.9 ^ 1) with 0.9. ring.
Qed.

(** C6, amended: a tick that finds a texture loaded stores
    [smoothed + (raw - smoothed) * 0.1], and a tick that finds none leaves
    the smoothed tilt as it was; over ticks that find a texture, with the
    raw tilt held at 1 from a smoothed tilt of 0, the smoothed tilt is 0.1
    after one tick and [1 - 0.9^10], within 0.002 of 0.65, after ten; it
    increases at every tick, the gap to 1 shrinks by the factor 0.9, and
    it never exceeds 1. *)
Theorem smoothing_step_response :
  let s := fun n => uTilt (ticks n textures 1 (mkUniforms 0 None)) in
  (forall raw u,
      uTilt (animate textures raw u)
      = uTilt u + (raw - uTilt u) * 0.1) /\
  (forall raw (u : Uniforms Texture), animate [] raw u = u) /\
  s 1%nat == 0.1 /\
  s 10%nat == 1 - 0.9 ^ 10 /\
  Qabs (s 10%nat - 0.65) <= 0.002 /\
  (forall n, s n < s (S n)) /\
  (forall n, 1 - s (S n) == 0.9 * (1 - s n)) /\
  (forall n, s n < 1).
Proof.
  intros s.
  assert (forall n, 1 - s n == 0.9 ^ Z.of_nat n) as Hgap.
  { intros n. unfold s. rewrite ticks_gap. cbn [uTilt]. ring. }
  assert (forall n, 0 < 0.9 ^ Z.of_nat n) as Hpos
      by (intros n; apply Qpower_0_lt; reflexivity).
  split; [reflexivity |].
  split; [reflexivity |].
  split; [vm_compute; reflexivity |].
  split; [vm_compute; reflexivity |].
  split; [vm_compute; discriminate |].
  split; [| split].
  - intros n. pose proof (Hgap n) as A. pose proof (Hpos n) as B.
    assert (1 - s (S n) == 0.9 * (1 - s n)) as C
        by (unfold s; rewrite ticks_tilt; apply smooth_gap).
    revert A B C. generalize (0.9 ^ Z.of_nat n) (s n) (s (S n)).
    intros p a b A B C. lra.
  - intros n. unfold s. rewrite ticks_tilt. apply smooth_gap.
  - intros n. pose proof (Hgap n) as A. pose proof (Hpos n) as B.
    revert A B. generalize (0.9 ^ Z.of_nat n) (s n). intros p a A B. lra.
Qed.

End Smoothing.

(** C6 as the specification states it fails for a tick that runs before
    any texture is loaded: [animate] returns early and the smoothed tilt
    stays at 0 although the raw tilt is 1. *)
Lemma tick_without_textures_keeps_tilt :
  let u := animate (@nil nat) 1 (mkUniforms 0 None) in
  uTilt u = 0 /\
  ~ uTilt u == 0 + (1 - 0) * 0.1.
Proof.
  cbv zeta. split; [reflexivity |]. vm_compute. discriminate.
Qed.

End ViewerFacts.

(** ** Facts about the sampler *)

Module SamplerFacts.
Import Sampler JSFacts.

(** *** Output dimensions *)

Lemma gtb_inject (a b : Z) :
  JS.gtb (inject_Z a) (inject_Z b) = (b <? a)%Z.
Proof.
  destruct (Z.ltb_spec b a) as [H | H].
  - apply gtb_true. rewrite <- Zlt_Qlt. exact H.
  - apply gtb_false. rewrite <- Zle_Qle. exact H.
Qed.

Lemma floor_ratio (a b : Z) :
  (0 < b)%Z ->
  Qfloor ((inject_Z a / inject_Z b) * maxDim) = (1024 * a / b)%Z.
Proof.
  intros Hb. rewrite Zdiv_Qdiv. apply Qfloor_comp.
  rewrite inject_Z_mult. unfold maxDim. change (inject_Z 1024) with 1024.
  field. pose proof (inject_Z_pos b ltac:(lia)) as Hq. lra.
Qed.

Lemma scaled_cases (v : Video) :
  let w := videoWidth v in
  let h := videoHeight v in
  scaled v =
  if ((1024 <? w) || (1024 <? h))%Z then
    if (h <? w)%Z
    then (maxDim, (inject_Z h / inject_Z w) * maxDim)
    else ((inject_Z w / inject_Z h) * maxDim, maxDim)
  else (inject_Z w, inject_Z h).
Proof.
  cbv zeta. unfold scaled.
  change maxDim with (inject_Z 1024) at 1 2.
  rewrite !gtb_inject. reflexivity.
Qed.

Lemma quotient_bounds (a b : Z) :
  (0 < a)%Z -> (a <= b)%Z ->
  (0 <= 1024 * a / b <= 1024)%Z /\
  ((0 < 1024 * a / b)%Z <-> (b <= 1024 * a)%Z).
Proof.
  intros Ha Hab.
  pose proof (Z.div_mod (1024 * a) b ltac:(lia)) as E.
  pose proof (Z.mod_pos_bound (1024 * a) b ltac:(lia)) as R.
  revert E R. generalize (1024 * a / b)%Z ((1024 * a) mod b)%Z.
  intros q r E R. split; [nia | split; nia].
Qed.

(** C4 as the specification states it fails for a source more than
    1024 times as wide as high: a 2048 x 1 source gets a canvas of
    height 0. *)
Lemma flat_source_has_zero_height :
  let v := mkVideo 2048 1 (JS.Fin 2) in
  (0 < videoWidth v)%Z /\ (0 < videoHeight v)%Z /\
  onloadedmetadata v = mkCanvas 1024 0 /\
  ~ (0 < canvas_height (onloadedmetadata v))%Z.
Proof.
  cbv zeta. repeat split; try reflexivity.
  vm_compute. discriminate.
Qed.

(** C4, amended: the canvas has the native size when both sides are at
    most 1024; otherwise both sides are scaled by one factor that brings
    the larger side to 1024; width and height are the floors of the
    scaled sides, lie between 0 and 1024, and are both positive exactly
    when the longer native side is at most 1024 times the shorter. *)
Theorem output_dimensions (v : Video) :
  let w := videoWidth v in
  let h := videoHeight v in
  let c := onloadedmetadata v in
  (0 < w)%Z -> (0 < h)%Z ->
  exists s : Q,
    0 < s /\ s <= 1 /\
    canvas_width c = Qfloor (s * inject_Z w) /\
    canvas_height c = Qfloor (s * inject_Z h) /\
    ((w <= 1024)%Z /\ (h <= 1024)%Z ->
     s == 1 /\ canvas_width c = w /\ canvas_height c = h) /\
    ((1024 < w)%Z \/ (1024 < h)%Z ->
     s * inject_Z (Z.max w h) == 1024 /\
     Z.max (canvas_width c) (canvas_height c) = 1024%Z) /\
    (0 <= canvas_width c <= 1024)%Z /\
    (0 <= canvas_height c <= 1024)%Z /\
    ((0 < canvas_width c)%Z /\ (0 < canvas_height c)%Z <->
     (Z.max w h <= 1024 * Z.min w h)%Z).
Proof.
  intros w h c Hw Hh.
  pose proof (inject_Z_pos w ltac:(lia)) as Hwq.
  pose proof (inject_Z_pos h ltac:(lia)) as Hhq.
  unfold c, onloadedmetadata. rewrite scaled_cases. fold w h.
  destruct ((1024 <? w) || (1024 <? h))%Z eqn:Big.
  - apply orb_true_iff in Big. rewrite !Z.ltb_lt in Big.
    destruct (Z.ltb_spec h w) as [Lhw | Lhw];
      cbn [canvas_width canvas_height]; unfold JS.Math_floor.
    + (* wider than high: the width becomes 1024 *)
      assert (1024 < w)%Z as Lw by lia.
      exists (1024 / inject_Z w).
      assert (inject_Z 1024 < inject_Z w) as Bq by (rewrite <- Zlt_Qlt; lia).
      change (inject_Z 1024) with 1024 in Bq.
      rewrite (floor_ratio h w Hw).
      destruct (quotient_bounds h w Hh ltac:(lia)) as [Q1 Q2].
      change (Qfloor maxDim) with 1024%Z.
      split; [apply Qlt_shift_div_l; lra |].
      split; [apply Qle_shift_div_r; lra |].
      split; [symmetry; apply (Qfloor_comp _ (inject_Z 1024)); field; lra |].
      split; [rewrite Zdiv_Qdiv; apply Qfloor_comp;
              rewrite inject_Z_mult; change (inject_Z 1024) with 1024;
              field; lra |].
      split; [intros [? ?]; exfalso; lia |].
      split; [intros _; split;
              [replace (Z.max w h) with w by lia; field; lra
              | clear - Q1; lia] |].
      split; [lia |]. split; [exact Q1 |].
      replace (Z.max w h) with w by lia.
      replace (Z.min w h) with h by lia.
      clear - Q2. lia.
    + (* at least as high as wide: the height becomes 1024 *)
      assert (1024 < h)%Z as Lh by lia.
      exists (1024 / inject_Z h).
      assert (inject_Z 1024 < inject_Z h) as Bq by (rewrite <- Zlt_Qlt; lia).
      change (inject_Z 1024) with 1024 in Bq.
      rewrite (floor_ratio w h Hh).
      destruct (quotient_bounds w h Hw ltac:(lia)) as [Q1 Q2].
      change (Qfloor maxDim) with 1024%Z.
      split; [apply Qlt_shift_div_l; lra |].
      split; [apply Qle_shift_div_r; lra |].
      split; [rewrite Zdiv_Qdiv; apply Qfloor_comp;
              rewrite inject_Z_mult; change (inject_Z 1024) with 1024;
              field; lra |].
      split; [symmetry; apply (Qfloor_comp _ (inject_Z 1024)); field; lra |].
      split; [intros [? ?]; exfalso; lia |].
      split; [intros _; split;
              [replace (Z.max w h) with h by lia; field; lra
              | clear - Q1; lia] |].
      split; [exact Q1 |]. split; [lia |].
      replace (Z.max w h) with h by lia.
      replace (Z.min w h) with w by lia.
      clear - Q2. lia.
  - (* both sides fit *)
    apply orb_false_iff in Big. rewrite !Z.ltb_ge in Big.
    cbn [canvas_width canvas_height]; unfold JS.Math_floor.
    exists 1. rewrite !Qmult_1_l, !Qfloor_Z.
    repeat split; try lra; try lia.
Qed.

Lemma output_dimensions_witness :
  exists s : Q,
    0 < s /\ s <= 1 /\
    canvas_width (onloadedmetadata (mkVideo 1920 1080 JS.PosInf))
    = Qfloor (s * inject_Z 1920) /\
    canvas_height (onloadedmetadata (mkVideo 1920 1080 JS.PosInf))
    = Qfloor (s * inject_Z 1080).
Proof.
  destruct (output_dimensions (mkVideo 1920 1080 JS.PosInf))
    as (s & A & B & C & D & _); [reflexivity | reflexivity |].
  exists s. repeat split; assumption.
Defined.

(** *** The sampling window and the seek times *)

Lemma safeDuration_cases (v : Video) :
  safeDuration v =
  match duration v with
  | JS.Fin d => if Qlt_le_dec 0 d then d else 3
  | _ => 3
  end.
Proof.
  unfold safeDuration. destruct (duration v) as [| | | d]; try reflexivity.
  unfold JS.or_else. destruct (Qeq_bool d 0) eqn:Z0.
  - apply Qeq_bool_iff in Z0.
    destruct (Qlt_le_dec 0 d) as [L | L]; [lra | reflexivity].
  - cbn [JS.isFinite JS.gt JS.finite_value andb].
    destruct (Qlt_le_dec 0 d) as [L | L].
    + destruct (Qle_bool d 0) eqn:B; [| reflexivity].
      apply Qle_bool_iff in B. lra.
    + destruct (Qle_bool d 0) eqn:B; [reflexivity |].
      apply Qle_bool_iff in L. congruence.
Qed.

Lemma processDuration_spec (v : Video) :
  processDuration v == spec_window (duration v).
Proof.
  unfold processDuration, spec_window. rewrite safeDuration_cases.
  set (d := match duration v with
            | JS.Fin d => if Qlt_le_dec 0 d then d else 3
            | _ => 3
            end).
  destruct (Qlt_le_dec 5 d) as [L | L].
  - apply Q.min_r. lra.
  - apply Q.min_l. exact L.
Qed.

Lemma spec_window_bounds (reported : JS.number) :
  0 < spec_window reported /\ spec_window reported <= 5.
Proof.
  unfold spec_window.
  destruct reported as [| | | d];
    try (destruct (Qlt_le_dec 0 d));
    match goal with
    | |- context [Qlt_le_dec 5 ?x] => destruct (Qlt_le_dec 5 x)
    end; split; lra.
Qed.

Lemma time_formula (v : Video) (frameCount : Z) (i : nat) :
  (1 <= frameCount)%Z ->
  time v frameCount i
  == inject_Z (Z.of_nat i) * spec_window (duration v) / inject_Z frameCount.
Proof.
  intros Hn. pose proof (inject_Z_pos frameCount Hn) as Hq.
  unfold time, interval. rewrite processDuration_spec. field. lra.
Qed.

Lemma time_in_window (v : Video) (frameCount : Z) (i : nat) :
  (1 <= frameCount)%Z -> (Z.of_nat i < frameCount)%Z ->
  0 <= time v frameCount i /\
  time v frameCount i < spec_window (duration v).
Proof.
  intros Hn Hi. pose proof (inject_Z_pos frameCount Hn) as Hq.
  rewrite time_formula by exact Hn.
  destruct (spec_window_bounds (duration v)) as [Wpos _].
  assert (0 <= inject_Z (Z.of_nat i)) as I0
      by (apply inject_Z_nonneg; lia).
  assert (inject_Z (Z.of_nat i) < inject_Z frameCount) as I1
      by (rewrite <- Zlt_Qlt; exact Hi).
  revert Wpos I0 I1 Hq.
  generalize (spec_window (duration v)) (inject_Z (Z.of_nat i))
             (inject_Z frameCount).
  intros W iq nq Wpos I0 I1 Hq. split.
  - apply Qle_shift_div_l; [exact Hq |].
    assert (0 <= iq * W) by (apply Qmult_le_0_compat; lra). lra.
  - apply Qlt_shift_div_r; [exact Hq |].
    rewrite (Qmult_comm iq W). apply Qmult_lt_l; assumption.
Qed.

(** *** The reported percentage *)






(** *** One iteration and the loop *)

Lemma extend_nil (w : World) : extend w [] = w.
Proof. destruct w. unfold extend. cbn. rewrite app_nil_r. reflexivity. Qed.

Lemma extend_app (w : World) (l1 l2 : list effect) :
  extend (extend w l1) l2 = extend w (l1 ++ l2).
Proof. unfold extend. cbn. rewrite app_assoc. reflexivity. Qed.

Ltac run_iteration :=
  unfold iteration, set_currentTime, await_seeked, drawImage, toBlob,
    createObjectURL, call_onProgress, may_throw, iteration_log,
    iteration_frames, bind, ret, throw, emit, extend;
  cbn [in_document log stage_eqb fst snd].

Lemma iteration_completes
      (frameCount : Z) (onProgress : bool) (env : nat -> iter_env)
      (v : Video) (c : Canvas) (fs : list Blob) (i : nat) (w : World) :
  throws onProgress env i = None ->
  iteration frameCount onProgress env v c fs i w
  = (extend w (iteration_log frameCount onProgress env v c i),
     Ok (fs ++ iteration_frames env c i)).
Proof.
  unfold throws. intros H. run_iteration.
  destruct (seek_wait (seeked_after (env i))) as [ms seeked].
  destruct (fault (env i)) as [[[] err] |];
    destruct (encoded (env i)); destruct onProgress;
      try discriminate H; cbn [in_document log stage_eqb fst snd app];
        rewrite <- ?app_assoc, ?app_nil_r; reflexivity.
Qed.

Lemma iteration_throws
      (frameCount : Z) (onProgress : bool) (env : nat -> iter_env)
      (v : Video) (c : Canvas) (fs : list Blob) (i : nat) (w : World)
      (err : exn) :
  throws onProgress env i = Some err ->
  exists l l',
    iteration frameCount onProgress env v c fs i w = (extend w l, Throw err) /\
    iteration_log frameCount onProgress env v c i = l ++ l'.
Proof.
  unfold throws. intros H.
  destruct (fault (env i)) as [[[] err'] |] eqn:F; try discriminate H.
  - injection H as ->. eexists [], _. split; [| reflexivity].
    run_iteration. rewrite F. cbn. rewrite app_nil_r.
    destruct w; reflexivity.
  - injection H as ->.
    eexists [_; _], _. split; [| reflexivity].
    run_iteration. rewrite F.
    destruct (seek_wait (seeked_after (env i))) as [ms seeked].
    cbn. rewrite <- ?app_assoc. reflexivity.
  - destruct (encoded (env i)) eqn:E; [| discriminate H]. injection H as ->.
    eexists [_; _; _], _. split; [| reflexivity].
    run_iteration. rewrite F, E.
    destruct (seek_wait (seeked_after (env i))) as [ms seeked].
    cbn. rewrite <- ?app_assoc. reflexivity.
  - destruct onProgress; [| discriminate H]. injection H as ->.
    eexists [_; _; _], _. split; [| reflexivity].
    run_iteration. rewrite F.
    destruct (seek_wait (seeked_after (env i))) as [ms seeked].
    destruct (encoded (env i));
      cbn; rewrite <- ?app_assoc; reflexivity.
Qed.

Lemma for_loop_spec
      (frameCount : Z) (onProgress : bool) (env : nat -> iter_env)
      (v : Video) (c : Canvas) (todo : nat) :
  forall (i : nat) (fs : list Blob) (w : World),
  exists l l' r,
    for_loop frameCount onProgress env v c todo i fs w = (extend w l, r) /\
    flat_map (iteration_log frameCount onProgress env v c) (seq i todo)
    = l ++ l' /\
    match r with
    | Ok fs' =>
        l' = [] /\
        fs' = fs ++ flat_map (iteration_frames env c) (seq i todo) /\
        (forall j, (i <= j < i + todo)%nat -> throws onProgress env j = None)
    | Throw err =>
        exists j, (i <= j < i + todo)%nat /\
                  throws onProgress env j = Some err /\
                  (forall k, (i <= k < j)%nat ->
                             throws onProgress env k = None)
    end.
Proof.
  induction todo as [| todo IH]; intros i fs w.
  - exists [], [], (Ok fs). cbn. rewrite extend_nil, app_nil_r.
    repeat split. intros j Hj. lia.
  - cbn [for_loop seq flat_map]. unfold bind at 1.
    destruct (throws onProgress env i) as [err |] eqn:T.
    + destruct (iteration_throws frameCount onProgress env v c fs i w err T)
        as (l & l' & -> & E).
      exists l,
        (l' ++ flat_map (iteration_log frameCount onProgress env v c)
                        (seq (S i) todo)),
        (Throw err).
      split; [reflexivity |]. split; [rewrite E, app_assoc; reflexivity |].
      exists i. split; [lia |]. split; [exact T |]. intros k Hk. lia.
    + rewrite (iteration_completes frameCount onProgress env v c fs i w T).
      destruct (IH (S i) (fs ++ iteration_frames env c i)
                   (extend w (iteration_log frameCount onProgress env v c i)))
        as (l & l' & r & -> & E & R).
      exists (iteration_log frameCount onProgress env v c i ++ l), l', r.
      split; [rewrite extend_app; reflexivity |].
      split; [rewrite E, app_assoc; reflexivity |].
      destruct r as [fs' | err].
      * destruct R as (-> & -> & R). split; [reflexivity |].
        split; [rewrite app_assoc; reflexivity |].
        intros j Hj. destruct (Nat.eq_dec j i) as [-> | Hne];
          [exact T | apply R; lia].
      * destruct R as (j & Hj & R & Rmin). exists j.
        split; [lia |]. split; [exact R |].
        intros k Hk. destruct (Nat.eq_dec k i) as [-> | Hne];
          [exact T | apply Rmin; lia].
Qed.

(** A run on media that loads: set-up, a prefix of the expected loop
    log, clean-up, settlement. *)
Lemma run_decoded
      (frameCount : Z) (onProgress : bool) (env : nat -> iter_env)
      (v : Video) :
  let c := onloadedmetadata v in
  let n := Z.to_nat frameCount in
  exists l l' r,
    flat_map (iteration_log frameCount onProgress env v c) (seq 0 n)
    = l ++ l' /\
    match r with
    | Ok fs =>
        l' = [] /\
        fs = flat_map (iteration_frames env c) (seq 0 n) /\
        (forall j, (j < n)%nat -> throws onProgress env j = None)
    | Throw err =>
        exists j, (j < n)%nat /\ throws onProgress env j = Some err /\
                  (forall k, (k < j)%nat -> throws onProgress env k = None)
    end /\
    run frameCount onProgress env true (Decoded v)
    = {| in_document := false;
         log := [AppendChild; CreateObjectURL] ++ l ++
                [RemoveChild; RevokeObjectURL;
                 Settle match r with
                        | Ok fs =>
                            Resolved {| frames := fs;
                                        width := canvas_width c;
                                        height := canvas_height c |}
                        | Throw err => Rejected (Caught err)
                        end] |}.
Proof.
  intros c n.
  destruct (for_loop_spec frameCount onProgress env v c n 0 []
                          (extend (mkWorld true []) [AppendChild; CreateObjectURL]))
    as (l & l' & r & L & E & R).
  exists l, l', r. split; [exact E |]. split.
  - destruct r as [fs | err].
    + destruct R as (-> & -> & R). repeat split. intros j Hj. apply R. lia.
    + destruct R as (j & Hj & R & Rmin). exists j.
      split; [lia |]. split; [exact R |]. intros k Hk. apply Rmin. lia.
  - unfold run, extractFrames, onloadeddata, try_catch. cbn [negb].
    unfold bind at 1. cbn [appendChild initial log app].
    unfold bind at 1. unfold emit at 1. cbn [in_document log app].
    unfold bind at 1. fold c. fold n.
    change {| in_document := true; log := [AppendChild; CreateObjectURL] |}
      with (extend (mkWorld true []) [AppendChild; CreateObjectURL]).
    rewrite L.
    destruct r as [fs | err]; cbn; rewrite <- ?app_assoc; reflexivity.
Qed.

(** *** Reading the log of a run *)

Lemma seeks_app (a b : list effect) : seeks (a ++ b) = seeks a ++ seeks b.
Proof.
  induction a as [| e a IH]; [reflexivity |].
  destruct e; cbn; rewrite IH; reflexivity.
Qed.

Lemma reports_app (a b : list effect) :
  reports (a ++ b) = reports a ++ reports b.
Proof.
  induction a as [| e a IH]; [reflexivity |].
  destruct e; cbn; rewrite IH; reflexivity.
Qed.


Lemma iteration_log_loop_only
      (frameCount : Z) (onProgress : bool) (env : nat -> iter_env)
      (v : Video) (c : Canvas) (i : nat) :
  Forall (fun e => is_loop_effect e = true)
         (iteration_log frameCount onProgress env v c i).
Proof.
  unfold iteration_log. destruct onProgress; repeat constructor.
Qed.

Lemma expected_loop_only
      (frameCount : Z) (onProgress : bool) (env : nat -> iter_env)
      (v : Video) (c : Canvas) (n i : nat) :
  Forall (fun e => is_loop_effect e = true)
         (flat_map (iteration_log frameCount onProgress env v c) (seq i n)).
Proof.
  revert i. induction n as [| n IH]; intros i; cbn [seq flat_map].
  - constructor.
  - apply Forall_app. split; [apply iteration_log_loop_only | apply IH].
Qed.

Lemma prefix_loop_only (full l l' : list effect) :
  Forall (fun e => is_loop_effect e = true) full ->
  full = l ++ l' ->
  Forall (fun e => is_loop_effect e = true) l.
Proof.
  intros F ->. apply Forall_app in F. apply F.
Qed.

Lemma settled_loop_only (l rest : list effect) :
  Forall (fun e => is_loop_effect e = true) l ->
  settled (l ++ rest) = settled rest.
Proof.
  induction 1 as [| e l He _ IH]; [reflexivity |].
  destruct e; try discriminate He; exact IH.
Qed.


Lemma seeks_expected
      (frameCount : Z) (onProgress : bool) (env : nat -> iter_env)
      (v : Video) (c : Canvas) (n i : nat) :
  seeks (flat_map (iteration_log frameCount onProgress env v c) (seq i n))
  = map (time v frameCount) (seq i n).
Proof.
  revert i. induction n as [| n IH]; intros i; cbn [seq flat_map map].
  - reflexivity.
  - rewrite seeks_app, IH. unfold iteration_log.
    destruct onProgress; reflexivity.
Qed.

Lemma reports_expected
      (frameCount : Z) (env : nat -> iter_env)
      (v : Video) (c : Canvas) (n i : nat) :
  reports (flat_map (iteration_log frameCount true env v c) (seq i n))
  = map (percent frameCount) (seq i n).
Proof.
  revert i. induction n as [| n IH]; intros i; cbn [seq flat_map map].
  - reflexivity.
  - rewrite reports_app, IH. reflexivity.
Qed.


(** An entry of a prefix of [map f (seq 0 n)] is [f] of its position. *)
Lemma nth_prefix_map {A : Type} (f : nat -> A) (n : nat)
      (l l' : list A) (i : nat) (x : A) :
  map f (seq 0 n) = l ++ l' ->
  nth_error l i = Some x ->
  (i < n)%nat /\ x = f i.
Proof.
  intros E H.
  assert (i < length l)%nat as Hi
      by (apply nth_error_Some; rewrite H; discriminate).
  assert (nth_error (map f (seq 0 n)) i = Some x) as H'
      by (rewrite E, nth_error_app1 by exact Hi; exact H).
  assert (i < n)%nat as Hn.
  { apply (f_equal (@length A)) in E.
    rewrite length_map, length_seq, length_app in E. lia. }
  split; [exact Hn |].
  rewrite nth_error_map, nth_error_seq in H'.
  destruct (Nat.ltb_spec i n); [| lia].
  cbn in H'. congruence.
Qed.

(** *** Properties of a sampling run *)

(** C1: the sampling window is the reported duration when that is finite
    and positive, 3 otherwise, capped at 5; the [i]-th seek a run
    requests is at [i * window / frameCount], which lies inside the
    window; a run in which nothing throws requests all [frameCount]
    seeks; for a finite duration [D] with [0 < D <= 5] the [k]-th seek
    time is [k * D / frameCount]. *)
Theorem sampling_times
        (v : Video) (frameCount : Z) (onProgress : bool)
        (env : nat -> iter_env) :
  (1 <= frameCount)%Z ->
  let window := spec_window (duration v) in
  let l := log (run frameCount onProgress env true (Decoded v)) in
  processDuration v == window /\
  0 < window /\ window <= 5 /\
  (forall i t,
      nth_error (seeks l) i = Some t ->
      (Z.of_nat i < frameCount)%Z /\
      t == inject_Z (Z.of_nat i) * window / inject_Z frameCount /\
      0 <= t /\ t <= window) /\
  ((forall i, (i < Z.to_nat frameCount)%nat -> fault (env i) = None) ->
   seeks l = map (time v frameCount) (seq 0 (Z.to_nat frameCount))) /\
  (forall D k,
      duration v = JS.Fin D -> 0 < D -> D <= 5 ->
      time v frameCount k
      == inject_Z (Z.of_nat k) * D / inject_Z frameCount).
Proof.
  intros Hn window l.
  destruct (spec_window_bounds (duration v)) as [W0 W5].
  split; [apply processDuration_spec |].
  split; [exact W0 |]. split; [exact W5 |].
  destruct (run_decoded frameCount onProgress env v)
    as (lp & lp' & r & E & R & Hrun).
  assert (seeks l = seeks lp) as Hl.
  { unfold l. rewrite Hrun. cbn [log]. rewrite !seeks_app. cbn.
    rewrite app_nil_r. reflexivity. }
  assert (map (time v frameCount) (seq 0 (Z.to_nat frameCount))
          = seeks lp ++ seeks lp') as Es
      by (rewrite <- seeks_app, <- E, seeks_expected; reflexivity).
  split; [| split].
  - intros i t Hi. rewrite Hl in Hi.
    destruct (nth_prefix_map _ _ _ _ _ _ Es Hi) as [Hlt ->].
    assert (Z.of_nat i < frameCount)%Z as Hi' by lia.
    destruct (time_in_window v frameCount i Hn Hi') as [T0 T1].
    split; [exact Hi' |]. split; [apply time_formula, Hn |].
    split; [exact T0 | fold window in T1; lra].
  - intros Hno. rewrite Hl, Es.
    destruct r as [fs | err].
    + destruct R as (-> & _). cbn. rewrite app_nil_r. reflexivity.
    + destruct R as (j & Hj & T & _). unfold throws in T.
      rewrite (Hno j Hj) in T. discriminate T.
  - intros D k HD D0 D5. rewrite time_formula by exact Hn.
    unfold spec_window. rewrite HD.
    destruct (Qlt_le_dec 0 D) as [_ | C]; [| lra].
    destruct (Qlt_le_dec 5 D) as [C | _]; [lra | reflexivity].
Qed.


Lemma sampling_times_witness :
  let v := mkVideo 1920 1080 (JS.Fin 2) in
  (1 <= 45)%Z /\
  processDuration v == 2 /\
  time v 45 44 == 88 # 45.
Proof.
  cbv zeta.
  assert (1 <= 45)%Z as H by lia.
  destruct (sampling_times (mkVideo 1920 1080 (JS.Fin 2)) 45 false
                           (fun _ => mkIterEnv None None 0 true) H)
    as (A & _ & _ & _ & _ & F).
  split; [exact H |]. split; [exact A |].
  rewrite (F 2 44%nat eq_refl); reflexivity || (vm_compute; discriminate).
Defined.


(** *** Settlement, frames and resources *)




Lemma no_fault_no_throw (onProgress : bool) (env : nat -> iter_env) (i : nat) :
  fault (env i) = None -> throws onProgress env i = None.
Proof. unfold throws. intros ->. reflexivity. Qed.

Lemma throws_ext (onProgress : bool) (env env' : nat -> iter_env) (i : nat) :
  fault (env i) = fault (env' i) ->
  encoded (env i) = encoded (env' i) ->
  throws onProgress env i = throws onProgress env' i.
Proof. unfold throws. intros -> ->. reflexivity. Qed.

(** The settlement of a run on media that loads. *)
Lemma run_settled
      (frameCount : Z) (onProgress : bool) (env : nat -> iter_env)
      (v : Video) :
  let c := onloadedmetadata v in
  let n := Z.to_nat frameCount in
  let l := log (run frameCount onProgress env true (Decoded v)) in
  (exists fs,
      settled l = Some (Resolved {| frames := fs;
                                    width := canvas_width c;
                                    height := canvas_height c |}) /\
      fs = flat_map (iteration_frames env c) (seq 0 n) /\
      (forall j, (j < n)%nat -> throws onProgress env j = None)) \/
  (exists err j,
      settled l = Some (Rejected (Caught err)) /\
      (j < n)%nat /\ throws onProgress env j = Some err /\
      (forall k, (k < j)%nat -> throws onProgress env k = None)).
Proof.
  intros c n l.
  destruct (run_decoded frameCount onProgress env v)
    as (lp & lp' & r & E & R & Hrun).
  assert (Forall (fun e => is_loop_effect e = true) lp) as Hlp
      by (eapply prefix_loop_only; [apply expected_loop_only | exact E]).
  assert (forall s, settled ([AppendChild; CreateObjectURL] ++ lp ++
                             [RemoveChild; RevokeObjectURL; Settle s])
                    = Some s) as Hs
      by (intros s; cbn [app settled];
          rewrite (settled_loop_only _ _ Hlp); reflexivity).
  unfold l. rewrite Hrun. cbn [log]. rewrite Hs.
  destruct r as [fs | err].
  - left. destruct R as (_ & R1 & R2). exists fs. auto.
  - right. destruct R as (j & R1 & R2 & R3). exists err, j. auto.
Qed.



(** C7: when [seeked] does not fire within 200 ms the wait resolves at
    200 ms without an exception, and an iteration in which no operation
    throws goes on to draw the picture then visible and completes; the
    settlement of a run does not depend on when, or whether, [seeked]
    fires. *)
Theorem seek_timeout_is_not_an_error
        (v : Video) (frameCount : Z) (onProgress : bool)
        (env : nat -> iter_env) (i : nat) :
  (seeked_after (env i) = None \/
   exists ms, seeked_after (env i) = Some ms /\ (200 <= ms)%nat) ->
  let c := onloadedmetadata v in
  (forall w, await_seeked (env i) w
             = (extend w [SeekWait 200 false], Ok tt)) /\
  (fault (env i) = None ->
   forall fs w,
     iteration frameCount onProgress env v c fs i w
     = (extend w ([SetCurrentTime (time v frameCount i);
                   SeekWait 200 false;
                   DrawImage (visible (env i))
                             (canvas_width c) (canvas_height c)]
                  ++ (if onProgress
                      then [OnProgress (percent frameCount i)]
                      else [])),
        Ok (fs ++ (if encoded (env i) then [snapshot (env i) c] else [])))) /\
  (forall env',
      (forall j, fault (env' j) = fault (env j) /\
                 visible (env' j) = visible (env j) /\
                 encoded (env' j) = encoded (env j)) ->
      settled (log (run frameCount onProgress env' true (Decoded v)))
      = settled (log (run frameCount onProgress env true (Decoded v)))).
Proof.
  intros Hlate c.
  assert (seek_wait (seeked_after (env i)) = (200%nat, false)) as Hw.
  { destruct Hlate as [-> | (ms & -> & Hms)]; [reflexivity |].
    unfold seek_wait, seek_timeout.
    destruct (Nat.ltb_spec ms 200); [lia | reflexivity]. }
  split; [| split].
  - intros w. unfold await_seeked. rewrite Hw. reflexivity.
  - intros Hf fs w.
    rewrite (iteration_completes frameCount onProgress env v c fs i w
                                 (no_fault_no_throw onProgress env i Hf)).
    unfold iteration_log, iteration_frames. rewrite Hw. reflexivity.
  - intros env' Hsame.
    assert (forall j, throws onProgress env' j = throws onProgress env j)
      as HT by (intros j; apply throws_ext; apply Hsame).
    assert (forall n, flat_map (iteration_frames env' c) (seq 0 n)
                      = flat_map (iteration_frames env c) (seq 0 n)) as HF.
    { intros n. apply flat_map_ext. intros j. unfold iteration_frames, snapshot.
      destruct (Hsame j) as (_ & -> & ->). reflexivity. }
    destruct (run_settled frameCount onProgress env v)
      as [(fs & S & -> & Hok) | (err & j & S & Hj & T & Tmin)];
      destruct (run_settled frameCount onProgress env' v)
      as [(fs' & S' & -> & Hok') | (err' & j' & S' & Hj' & T' & Tmin')];
      rewrite S, S'; fold c.
    + rewrite HF. reflexivity.
    + rewrite HT, (Hok j' Hj') in T'. discriminate T'.
    + rewrite <- HT, (Hok' j Hj) in T. discriminate T.
    + rewrite HT in T'.
      destruct (Nat.lt_trichotomy j j') as [L | [-> | L]].
      * rewrite <- HT, (Tmin' j L) in T. discriminate T.
      * congruence.
      * rewrite (Tmin j' L) in T'. discriminate T'.
Qed.

Lemma seek_timeout_is_not_an_error_witness :
  let env := fun i => mkIterEnv None (if Nat.eqb i 1 then None
                                      else Some 20%nat) i true in
  (seeked_after (env 1%nat) = None \/
   exists ms, seeked_after (env 1%nat) = Some ms /\ (200 <= ms)%nat) /\
  await_seeked (env 1%nat) initial
  = (extend initial [SeekWait 200 false], Ok tt).
Proof.
  cbv zeta.
  assert (seeked_after (mkIterEnv None None 1 true) = None \/
          exists ms, seeked_after (mkIterEnv None None 1 true) = Some ms /\
                     (200 <= ms)%nat) as H by (left; reflexivity).
  split; [exact H |].
  exact (proj1 (seek_timeout_is_not_an_error
                  (mkVideo 1920 1080 (JS.Fin 2)) 3 false
                  (fun i => mkIterEnv None (if Nat.eqb i 1 then None
                                            else Some 20%nat) i true)
                  1%nat H) initial).
Defined.


End SamplerFacts.

(** ** Facts about the tilt input *)

Module InputFacts.
Import Viewer Input JSFacts.

Ltac close_case :=
  first [ lra
        | reflexivity
        | intros; reflexivity
        | intros; exfalso; intuition congruence
        | intros; lra ].

(** The clamp is finite and within the bound for every reading. *)
Lemma clamped_spec (m : Q) (gamma : option JS.number) :
  0 < m ->
  exists c,
    clamped m gamma = JS.Fin c /\ - m <= c /\ c <= m /\
    (gamma = None \/ gamma = Some JS.NaN -> c == 0) /\
    (gamma = Some JS.PosInf -> c == m) /\
    (gamma = Some JS.NegInf -> c == - m) /\
    (forall g, gamma = Some (JS.Fin g) ->
               (g <= - m -> c == - m) /\
               (m <= g -> c == m) /\
               (- m <= g -> g <= m -> c == g)).
Proof.
  intros Hm. unfold clamped, gamma_or_zero.
  assert (Qmin m 0 == 0) as E1 by (apply Q.min_r; lra).
  assert (Qmax (- m) (Qmin m 0) == 0) as E2
      by (rewrite E1; apply Q.max_r; lra).
  assert (Qmax (- m) m == m) as E3 by (apply Q.max_r; lra).
  destruct gamma as [[| | | g] |]; cbn.
  - exists (Qmax (- m) (Qmin m 0)).
    split; [reflexivity |]. rewrite E2. repeat split; close_case.
  - exists (Qmax (- m) m).
    split; [reflexivity |]. rewrite E3. repeat split; close_case.
  - exists (- m). split; [reflexivity |]. repeat split; close_case.
  - assert (exists g', (if Qeq_bool g 0 then JS.Fin 0 else JS.Fin g)
                       = JS.Fin g' /\ g' == g) as (g' & -> & Eg).
    { destruct (Qeq_bool g 0) eqn:E.
      - apply Qeq_bool_iff in E. exists 0. split; [reflexivity |].
        symmetry. exact E.
      - exists g. split; reflexivity. }
    cbn. exists (Qmax (- m) (Qmin m g')). split; [reflexivity |].
    assert (- m <= Qmax (- m) (Qmin m g')) as L by apply Q.le_max_l.
    assert (Qmax (- m) (Qmin m g') <= m) as U.
    { apply Q.max_lub; [lra | apply Q.le_min_l]. }
    split; [exact L |]. split; [exact U |].
    split; [intros [H | H]; discriminate H |].
    split; [intros H; discriminate H |].
    split; [intros H; discriminate H |].
    intros g0 H. injection H as <-.
    split; [| split].
    + intros Hg. assert (Qmin m g' == g') as -> by (apply Q.min_r; lra).
      apply Q.max_l. lra.
    + intros Hg. assert (Qmin m g' == m) as -> by (apply Q.min_l; lra).
      apply Q.max_r. lra.
    + intros H1 H2. assert (Qmin m g' == g') as -> by (apply Q.min_r; lra).
      rewrite Q.max_r by lra. exact Eg.
  - exists (Qmax (- m) (Qmin m 0)).
    split; [reflexivity |]. rewrite E2. repeat split; close_case.
Qed.

Lemma orientation_tilt_aux (gamma : option JS.number) :
  exists t, handleOrientation gamma = JS.Fin t /\ -1 <= t /\ t <= 1.
Proof.
  destruct (clamped_spec 45 gamma ltac:(reflexivity)) as (c & Hc & L & U & _).
  exists (c / 45). unfold handleOrientation. rewrite Hc. cbn [div_by].
  split; [reflexivity |].
  unfold Qdiv. change (/ 45) with (1 # 45). split; lra.
Qed.

(** X1: whatever the sensor reports (a finite angle, nothing, NaN or an
    infinity), [handleOrientation] stores a finite tilt in [-1,1]: 0 for
    no reading, [gamma/45] for an angle within 45 degrees, and -1 or 1
    beyond. *)
Theorem orientation_tilt (gamma : option JS.number) :
  exists t,
    handleOrientation gamma = JS.Fin t /\ -1 <= t /\ t <= 1 /\
    (gamma = None \/ gamma = Some JS.NaN -> t == 0) /\
    (gamma = Some JS.PosInf -> t == 1) /\
    (gamma = Some JS.NegInf -> t == -1) /\
    (forall g, gamma = Some (JS.Fin g) ->
               (g <= -45 -> t == -1) /\
               (45 <= g -> t == 1) /\
               (-45 <= g -> g <= 45 -> t == g / 45)).
Proof.
  destruct (clamped_spec 45 gamma ltac:(reflexivity))
    as (c & Hc & L & U & H0 & Hp & Hn & Hg).
  exists (c / 45). unfold handleOrientation. rewrite Hc. cbn [div_by].
  split; [reflexivity |].
  unfold Qdiv. change (/ 45) with (1 # 45).
  split; [lra |]. split; [lra |].
  split; [intros H; rewrite (H0 H); reflexivity |].
  split; [intros H; rewrite (Hp H); reflexivity |].
  split; [intros H; rewrite (Hn H); reflexivity |].
  intros g H. destruct (Hg g H) as (A & B & C).
  split; [intros G; rewrite (A G); reflexivity |].
  split; [intros G; rewrite (B G); reflexivity |].
  intros G1 G2. rewrite (C G1 G2). reflexivity.
Qed.

Lemma pointer_in_range (clientX innerWidth : Q) :
  0 < innerWidth -> 0 <= clientX -> clientX <= innerWidth ->
  -1 <= handleMouseMove clientX innerWidth /\
  handleMouseMove clientX innerWidth <= 1.
Proof.
  intros Hw H0 H1. unfold handleMouseMove.
  assert (0 <= clientX / innerWidth) as A
      by (apply Qle_shift_div_l; lra).
  assert (clientX / innerWidth <= 1) as B
      by (apply Qle_shift_div_r; lra).
  revert A B. generalize (clientX / innerWidth). intros q A B. split; lra.
Qed.

(** X2: with a window of positive width, [handleMouseMove] stores a tilt
    in [-1,1] exactly when the pointer is over the window; the tilt is -1
    at the left edge, 1 at the right edge, and grows with the pointer's
    position. *)
Theorem pointer_tilt (clientX innerWidth : Q) :
  0 < innerWidth ->
  (-1 <= handleMouseMove clientX innerWidth /\
   handleMouseMove clientX innerWidth <= 1 <->
   0 <= clientX /\ clientX <= innerWidth) /\
  handleMouseMove 0 innerWidth == -1 /\
  handleMouseMove innerWidth innerWidth == 1 /\
  (forall clientX',
      clientX <= clientX' ->
      handleMouseMove clientX innerWidth
      <= handleMouseMove clientX' innerWidth).
Proof.
  intros Hw. unfold handleMouseMove.
  assert (forall x, x / innerWidth * innerWidth == x) as Hx
      by (intros x; field; lra).
  assert (forall x y, x <= y <-> x / innerWidth <= y / innerWidth) as Hmono.
  { intros x y. split; intros H.
    - apply Qmult_le_compat_r; [exact H |].
      apply Qlt_le_weak, Qinv_lt_0_compat, Hw.
    - rewrite <- (Hx x), <- (Hx y).
      apply Qmult_le_compat_r; [exact H | lra]. }
  assert (0 / innerWidth == 0) as H0 by (field; lra).
  assert (innerWidth / innerWidth == 1) as H1 by (field; lra).
  split; [| split; [| split]].
  - rewrite (Hmono 0 clientX), (Hmono clientX innerWidth), H0, H1.
    generalize (clientX / innerWidth). intros q. split; intros [A B]; split; lra.
  - rewrite H0. reflexivity.
  - rewrite H1. reflexivity.
  - intros x' Hle. apply Hmono in Hle. revert Hle.
    generalize (clientX / innerWidth) (x' / innerWidth). intros p q Hle. lra.
Qed.

Lemma pointer_tilt_witness :
  0 < 1280 /\
  -1 <= handleMouseMove 320 1280 /\ handleMouseMove 320 1280 <= 1.
Proof.
  assert (0 < 1280) as H by reflexivity.
  destruct (pointer_tilt 320 1280 H) as ((_ & In_range) & _).
  split; [exact H |].
  apply In_range. split; vm_compute; discriminate.
Defined.

(** *** The tick, for any tilt *)

Lemma smooth_between (s raw : Q) :
  (s <= raw -> s <= smooth s raw /\ smooth s raw <= raw) /\
  (raw <= s -> raw <= smooth s raw /\ smooth s raw <= s).
Proof. unfold smooth. split; intros H; split; lra. Qed.


Lemma tick_binds_any {Texture : Type} (tex : Texture) (rest : list Texture)
      (tiltRef : Q) (u : Uniforms Texture) :
  exists x, uTexture (animate (tex :: rest) tiltRef u) = Some x /\
            In x (tex :: rest).
Proof.
  pose proof (ViewerFacts.animate_texture tex rest tiltRef u) as Htex.
  cbv zeta in Htex.
  assert (1 <= Z.of_nat (length (tex :: rest)))%Z as Hn
      by (simpl length; lia).
  pose proof (ViewerFacts.frameIndex_range
                (uTilt (animate (tex :: rest) tiltRef u)) _ Hn) as Hr.
  destruct (nth_error (tex :: rest)
                      (Z.to_nat (frameIndex
                                   (uTilt (animate (tex :: rest) tiltRef u))
                                   (Z.of_nat (length (tex :: rest))))))
    as [x |] eqn:E.
  - exists x. split; [exact Htex |]. eapply nth_error_In. exact E.
  - apply nth_error_None in E. clear - E Hr. lia.
Qed.


(** *** A viewing session *)

Lemma play_snoc {Texture : Type} (events : list (event Texture))
      (e : event Texture) (s : Refs Texture) :
  play (events ++ [e]) s = dispatch (play events s) e.
Proof. unfold play. rewrite fold_left_app. reflexivity. Qed.

Lemma handleOrientation_value (gamma : option JS.number) :
  -1 <= JS.finite_value (handleOrientation gamma) /\
  JS.finite_value (handleOrientation gamma) <= 1.
Proof.
  destruct (orientation_tilt_aux gamma) as (t & -> & L & U).
  cbn. split; assumption.
Qed.

(** X4: from mounting on, through any sequence of orientation events,
    pointer moves over the window, texture arrivals and ticks, the raw
    and the smoothed tilt stay in [-1,1]; a bound texture always comes
    from a list that was loaded; and as long as no non-empty list has
    been loaded the uniforms stay as mounted (tilt 0, no texture). *)
Theorem session_invariant {Texture : Type} (events : list (event Texture)) :
  Forall pointer_inside events ->
  let s := play events mounted in
  (-1 <= tiltRef s /\ tiltRef s <= 1) /\
  (-1 <= uTilt (uniforms s) /\ uTilt (uniforms s) <= 1) /\
  (forall x, uTexture (uniforms s) = Some x ->
             exists textures, In (Loaded textures) events /\ In x textures) /\
  ((forall textures, In (Loaded textures) events -> textures = []) ->
   uniforms s = mkUniforms 0 None).
Proof.
  intros Hin. cbv zeta.
  assert ((-1 <= tiltRef (play events mounted) /\
           tiltRef (play events mounted) <= 1) /\
          (-1 <= uTilt (uniforms (play events mounted)) /\
           uTilt (uniforms (play events mounted)) <= 1) /\
          (forall x, uTexture (uniforms (play events mounted)) = Some x ->
                     exists textures,
                       In (Loaded textures) events /\ In x textures) /\
          (texturesRef (play events mounted) = [] \/
           In (Loaded (texturesRef (play events mounted))) events) /\
          ((forall textures, In (Loaded textures) events -> textures = []) ->
           uniforms (play events mounted) = mkUniforms 0 None /\
           texturesRef (play events mounted) = [])) as Inv.
  { induction events as [| e events IH] using rev_ind.
    - cbn. repeat split; try lra; try discriminate.
      left. reflexivity.
    - apply Forall_app in Hin. destruct Hin as [Hin He].
      apply Forall_inv in He.
      destruct (IH Hin) as (Ht & Hu & Hx & Href & Hnone). clear IH.
      rewrite play_snoc. set (s := play events mounted) in *.
      assert (forall P : list Texture -> Prop,
                 (exists textures, In (Loaded textures) events /\ P textures) ->
                 exists textures,
                   In (Loaded textures) (events ++ [e]) /\ P textures)
        as Hweak.
      { intros P (ts & I & p). exists ts. split; [| exact p].
        apply in_or_app. left. exact I. }
      assert ((forall textures, In (Loaded textures) (events ++ [e]) ->
                                textures = []) ->
              forall textures, In (Loaded textures) events -> textures = [])
        as Hstrong.
      { intros H ts I. apply H. apply in_or_app. left. exact I. }
      destruct e as [gamma | clientX innerWidth | textures |];
        cbn [dispatch tiltRef texturesRef uniforms].
      + split; [apply handleOrientation_value |]. split; [exact Hu |].
        split; [intros x E; apply (Hweak (fun ts => In x ts)), Hx, E |].
        split; [destruct Href as [E | I];
                [left; exact E | right; apply in_or_app; left; exact I] |].
        intros H. apply Hnone, Hstrong, H.
      + cbn in He. destruct He as (A & B & C).
        split; [apply (pointer_in_range clientX innerWidth C A B) |].
        split; [exact Hu |].
        split; [intros x E; apply (Hweak (fun ts => In x ts)), Hx, E |].
        split; [destruct Href as [E | I];
                [left; exact E | right; apply in_or_app; left; exact I] |].
        intros H. apply Hnone, Hstrong, H.
      + split; [exact Ht |]. split; [exact Hu |].
        split; [intros x E; apply (Hweak (fun ts => In x ts)), Hx, E |].
        split; [right; apply in_or_app; right; left; reflexivity |].
        intros H. split; [apply Hnone, Hstrong, H |].
        apply H. apply in_or_app. right. left. reflexivity.
      + split; [exact Ht |].
        destruct (texturesRef s) as [| tex rest] eqn:Eref.
        * cbn [animate]. split; [exact Hu |].
          split; [intros x E; apply (Hweak (fun ts => In x ts)), Hx, E |].
          split; [left; reflexivity |].
          intros H. apply Hnone, Hstrong, H.
        * assert (In (Loaded (tex :: rest)) events) as Hloaded
              by (destruct Href as [E | I]; [discriminate E | exact I]).
          split.
          { rewrite ViewerFacts.animate_tilt.
            destruct (smooth_between (uTilt (uniforms s)) (tiltRef s))
              as [Up Down].
            destruct (Qlt_le_dec (tiltRef s) (uTilt (uniforms s))) as [C | C].
            - destruct (Down (Qlt_le_weak _ _ C)) as [D1 D2]. split; lra.
            - destruct (Up C) as [U1 U2]. split; lra. }
          split.
          { intros x E.
            destruct (tick_binds_any tex rest (tiltRef s) (uniforms s))
              as (y & Ey & Iy).
            rewrite E in Ey. injection Ey as <-.
            exists (tex :: rest). split; [| exact Iy].
            apply in_or_app. left. exact Hloaded. }
          split; [right; apply in_or_app; left; exact Hloaded |].
          intros H. exfalso.
          specialize (Hstrong H (tex :: rest) Hloaded). discriminate Hstrong. }
  destruct Inv as (A & B & C & _ & D).
  split; [exact A |]. split; [exact B |]. split; [exact C |].
  intros H. apply D, H.
Qed.

Lemma session_invariant_witness :
  let events := [Orientation (Some (JS.Fin 90)); Loaded [7%nat; 8%nat; 9%nat];
                 AnimationFrame; MouseMove 100 400; AnimationFrame] in
  Forall pointer_inside events /\
  -1 <= uTilt (uniforms (play events mounted)) /\
  uTilt (uniforms (play events mounted)) <= 1.
Proof.
  cbv zeta.
  assert (Forall (@pointer_inside nat)
                 [Orientation (Some (JS.Fin 90)); Loaded [7%nat; 8%nat; 9%nat];
                  AnimationFrame; MouseMove 100 400; AnimationFrame]) as H.
  { repeat constructor; vm_compute; discriminate. }
  split; [exact H |].
  exact (proj1 (proj2 (session_invariant _ H))).
Defined.


End InputFacts.

(** ** Facts about the fragment shader's mapping *)

Module ShaderFacts.
Import Shader JSFacts.

Lemma ratio_pos (a b : Q) : 0 < a -> 0 < b -> 0 < a / b.
Proof. intros Ha Hb. apply Qlt_shift_div_l; lra. Qed.

(** The scale of the cover mapping, in terms of the two aspect ratios. *)
Lemma coverScale_cases (resolution texResolution : vec2) :
  let sAspect := fst resolution / snd resolution in
  let tAspect := fst texResolution / snd texResolution in
  0 < sAspect -> 0 < tAspect ->
  (tAspect < sAspect /\
   coverScale resolution texResolution = (1, tAspect / sAspect) /\
   0 < tAspect / sAspect /\ tAspect / sAspect < 1) \/
  (sAspect <= tAspect /\
   coverScale resolution texResolution = (sAspect / tAspect, 1) /\
   0 < sAspect / tAspect /\ sAspect / tAspect <= 1).
Proof.
  intros sAspect tAspect Hs Ht. unfold coverScale.
  fold sAspect tAspect.
  destruct (JS.gtb sAspect tAspect) eqn:G.
  - apply gtb_true in G. left.
    split; [exact G |]. split; [reflexivity |].
    split; [apply ratio_pos; assumption |].
    apply Qlt_shift_div_r; lra.
  - apply gtb_false in G. right.
    split; [exact G |]. split; [reflexivity |].
    split; [apply ratio_pos; assumption |].
    apply Qle_shift_div_r; lra.
Qed.

Lemma cover_axis (x k : Q) :
  0 < k -> k <= 1 -> 0 <= x -> x <= 1 ->
  0 <= (x - 0.5) * k + 0.5 /\ (x - 0.5) * k + 0.5 <= 1.
Proof. intros K0 K1 X0 X1. split; nra. Qed.

(** X6: for a viewport and an image of positive size, [getCoverUV] scales
    exactly one axis by a factor in (0,1] and leaves the other alone, so
    every viewport point samples inside the image (no letterbox), the
    centre maps to the centre, and the sampled part of the image has the
    viewport's aspect ratio. *)
Theorem cover_mapping (uv resolution texResolution : vec2) :
  0 < fst resolution -> 0 < snd resolution ->
  0 < fst texResolution -> 0 < snd texResolution ->
  let scale := coverScale resolution texResolution in
  let out := getCoverUV uv resolution texResolution in
  (0 < fst scale /\ fst scale <= 1) /\
  (0 < snd scale /\ snd scale <= 1) /\
  (fst scale = 1 \/ snd scale = 1) /\
  (fst scale * fst texResolution) / (snd scale * snd texResolution)
  == fst resolution / snd resolution /\
  (0 <= fst uv -> fst uv <= 1 -> 0 <= fst out /\ fst out <= 1) /\
  (0 <= snd uv -> snd uv <= 1 -> 0 <= snd out /\ snd out <= 1) /\
  (fst uv == 0.5 -> fst out == 0.5) /\
  (snd uv == 0.5 -> snd out == 0.5).
Proof.
  intros Rx Ry Tx Ty scale out.
  pose proof (ratio_pos _ _ Rx Ry) as Hs.
  pose proof (ratio_pos _ _ Tx Ty) as Ht.
  assert ((0 < fst scale /\ fst scale <= 1) /\
          (0 < snd scale /\ snd scale <= 1) /\
          (fst scale = 1 \/ snd scale = 1) /\
          (fst scale * fst texResolution) / (snd scale * snd texResolution)
          == fst resolution / snd resolution) as (Sx & Sy & One & Aspect).
  { destruct (coverScale_cases resolution texResolution Hs Ht)
      as [(G & E & P & L) | (G & E & P & L)];
      unfold scale; rewrite E; cbn [fst snd].
    - split; [split; lra |]. split; [split; lra |].
      split; [left; reflexivity |].
      field. repeat split; lra.
    - split; [split; lra |]. split; [split; lra |].
      split; [right; reflexivity |].
      field. repeat split; lra. }
  split; [exact Sx |]. split; [exact Sy |]. split; [exact One |].
  split; [exact Aspect |].
  unfold out, getCoverUV. fold scale. cbn [fst snd].
  split; [intros A B; apply cover_axis; tauto |].
  split; [intros A B; apply cover_axis; tauto |].
  split; intros E; rewrite E; ring.
Qed.

Lemma cover_mapping_witness :
  0 < 1920 /\
  fst (getCoverUV (0, 0) (1920, 1080) (1024, 1024)) == 0 /\
  0 <= snd (getCoverUV (0, 0) (1920, 1080) (1024, 1024)).
Proof.
  assert (0 < 1920) as A by reflexivity.
  assert (0 < 1080) as B by reflexivity.
  assert (0 < 1024) as C by reflexivity.
  destruct (cover_mapping (0, 0) (1920, 1080) (1024, 1024) A B C C)
    as (_ & _ & _ & _ & _ & Y & _).
  split; [exact A |]. split; [reflexivity |].
  apply Y; vm_compute; discriminate.
Defined.

(** *** Ridges *)

Lemma fract_range (x : Q) : 0 <= fract x /\ fract x < 1.
Proof.
  unfold fract. pose proof (Qfloor_le x) as A. pose proof (Qlt_floor x) as B.
  rewrite inject_Z_plus in B. change (inject_Z 1) with 1 in B.
  split; lra.
Qed.

Lemma fract_shift (x : Q) (k : Z) : fract (x + inject_Z k) == fract x.
Proof.
  unfold fract.
  assert (Qfloor (x + inject_Z k) = (Qfloor x + k)%Z) as ->.
  { apply floor_unique.
    pose proof (Qfloor_le x) as A. pose proof (Qlt_floor x) as B.
    rewrite !inject_Z_plus in *. change (inject_Z 1) with 1 in *.
    split; lra. }
  rewrite inject_Z_plus. ring.
Qed.

(** X7: across the viewport the ridge coordinate [localX] stays in [0,1)
    and repeats every 10 output pixels, whatever the resolution; the
    sawtooth stays in [-1,1) and the chromatic offset between 0.004 and
    0.008. *)
Theorem ridges_repeat_every_ten_pixels (uv_x resolution_x : Q) (k : Z) :
  0 < resolution_x ->
  let l := localX uv_x resolution_x in
  (0 <= l /\ l < 1) /\
  (-1 <= sawtooth l /\ sawtooth l < 1) /\
  (0.004 <= abbStrength (sawtooth l) /\ abbStrength (sawtooth l) <= 0.008) /\
  localX (uv_x + inject_Z k * ridgeWidth / resolution_x) resolution_x == l.
Proof.
  intros Hr l.
  destruct (fract_range (uv_x * (resolution_x / ridgeWidth))) as [L0 L1].
  fold (localX uv_x resolution_x) in L0, L1. fold l in L0, L1.
  split; [split; assumption |].
  assert (-1 <= sawtooth l /\ sawtooth l < 1) as [S0 S1]
      by (unfold sawtooth; split; lra).
  split; [split; assumption |].
  split.
  - unfold abbStrength.
    assert (0 <= Qabs (sawtooth l)) as A0 by apply Qabs_nonneg.
    assert (Qabs (sawtooth l) <= 1) as A1
        by (apply Qabs_Qle_condition; split; lra).
    revert A0 A1. generalize (Qabs (sawtooth l)). intros a A0 A1. split; lra.
  - unfold l, localX.
    rewrite <- (fract_shift (uv_x * (resolution_x / ridgeWidth)) k).
    unfold fract.
    assert ((uv_x + inject_Z k * ridgeWidth / resolution_x)
            * (resolution_x / ridgeWidth)
            == uv_x * (resolution_x / ridgeWidth) + inject_Z k) as E
        by (unfold ridgeWidth; field; lra).
    rewrite (Qfloor_comp _ _ E), E. reflexivity.
Qed.

Lemma ridges_repeat_every_ten_pixels_witness :
  0 < 1920 /\
  localX ((3 # 1920) + inject_Z 5 * ridgeWidth / 1920) 1920
  == localX (3 # 1920) 1920.
Proof.
  assert (0 < 1920) as H by reflexivity.
  split; [exact H |].
  exact (proj2 (proj2 (proj2
           (ridges_repeat_every_ten_pixels (3 # 1920) 1920 5 H)))).
Defined.

(** X8: [updateSize] caps the pixel ratio at 2; the resolution it stores
    has the container's aspect ratio, so the cover mapping does not depend
    on the pixel ratio. *)
Theorem cover_ignores_pixel_ratio
        (uv texResolution : vec2)
        (clientWidth clientHeight devicePixelRatio : Q) :
  0 < clientWidth -> 0 < clientHeight -> 0 < devicePixelRatio ->
  let resolution := updateSize clientWidth clientHeight devicePixelRatio in
  let out := getCoverUV uv resolution texResolution in
  let ref := getCoverUV uv (clientWidth, clientHeight) texResolution in
  fst resolution <= 2 * clientWidth /\
  snd resolution <= 2 * clientHeight /\
  fst resolution / snd resolution == clientWidth / clientHeight /\
  fst out == fst ref /\ snd out == snd ref.
Proof.
  intros Hw Hh Hd resolution out ref.
  unfold resolution, updateSize. cbn [fst snd].
  assert (0 < Qmin devicePixelRatio 2) as D0
      by (apply Q.min_glb_lt; [exact Hd | reflexivity]).
  assert (Qmin devicePixelRatio 2 <= 2) as D2 by apply Q.le_min_r.
  revert D0 D2. unfold out, ref, resolution, updateSize.
  generalize (Qmin devicePixelRatio 2). intros d D0 D2.
  assert (clientWidth * d / (clientHeight * d) == clientWidth / clientHeight)
    as E by (field; split; lra).
  split; [nra |]. split; [nra |]. split; [exact E |].
  unfold getCoverUV, coverScale. cbn [fst snd].
  assert (JS.gtb (clientWidth * d / (clientHeight * d))
                 (fst texResolution / snd texResolution)
          = JS.gtb (clientWidth / clientHeight)
                   (fst texResolution / snd texResolution)) as ->.
  { unfold JS.gtb. rewrite E. reflexivity. }
  destruct (JS.gtb (clientWidth / clientHeight)
                   (fst texResolution / snd texResolution));
    cbn [fst snd]; rewrite ?E; split; reflexivity.
Qed.

Lemma cover_ignores_pixel_ratio_witness :
  0 < 3 /\
  fst (updateSize 390 844 3) == 780 /\
  fst (updateSize 390 844 3) / snd (updateSize 390 844 3) == 390 / 844.
Proof.
  assert (0 < 390) as A by reflexivity.
  assert (0 < 844) as B by reflexivity.
  assert (0 < 3) as C by reflexivity.
  destruct (cover_ignores_pixel_ratio (0, 0) (1024, 576) 390 844 3 A B C)
    as (_ & _ & E & _).
  split; [exact C |]. split; [reflexivity | exact E].
Defined.

End ShaderFacts.

(** ** More facts about a sampling run *)

Module RunFacts.
Import Sampler Timing JSFacts SamplerFacts.

Lemma frames_in_order (env : nat -> iter_env) (c : Canvas) (n i : nat) :
  flat_map (iteration_frames env c) (seq i n)
  = map (fun j => snapshot (env j) c)
        (filter (fun j => encoded (env j)) (seq i n)).
Proof.
  revert i. induction n as [| n IH]; intros i; cbn [seq flat_map filter].
  - reflexivity.
  - rewrite IH. unfold iteration_frames.
    destruct (encoded (env i)); reflexivity.
Qed.

Lemma time_step (v : Video) (frameCount : Z) (i : nat) :
  time v frameCount (S i) - time v frameCount i == interval v frameCount.
Proof.
  unfold time. rewrite Nat2Z.inj_succ. unfold Z.succ.
  rewrite inject_Z_plus. change (inject_Z 1) with 1. ring.
Qed.

Lemma interval_pos (v : Video) (frameCount : Z) :
  (1 <= frameCount)%Z -> 0 < interval v frameCount.
Proof.
  intros Hn. unfold interval. rewrite processDuration_spec.
  apply Qlt_shift_div_l; [apply inject_Z_pos, Hn |].
  destruct (spec_window_bounds (duration v)) as [W _]. lra.
Qed.

Lemma time_increasing (v : Video) (frameCount : Z) (i j : nat) :
  (1 <= frameCount)%Z -> (i < j)%nat ->
  time v frameCount i < time v frameCount j.
Proof.
  intros Hn Hij. pose proof (interval_pos v frameCount Hn) as Hp.
  unfold time.
  assert (inject_Z (Z.of_nat i) < inject_Z (Z.of_nat j)) as H
      by (rewrite <- Zlt_Qlt; lia).
  apply Qmult_lt_compat_r; assumption.
Qed.

(** X9: the seeks of a run start at time 0 and are evenly spaced: each is
    one interval (window / frameCount, which is positive) after the one
    before, so seek times strictly increase; the frames a run resolves
    with are the snapshots of the iterations whose encoding gave a blob,
    in iteration order, hence in increasing seek time. *)
Theorem seeks_evenly_spaced_frames_in_order
        (v : Video) (frameCount : Z) (onProgress : bool)
        (env : nat -> iter_env) :
  (1 <= frameCount)%Z ->
  let c := onloadedmetadata v in
  let n := Z.to_nat frameCount in
  let l := log (run frameCount onProgress env true (Decoded v)) in
  time v frameCount 0 == 0 /\
  0 < interval v frameCount /\
  (forall i, time v frameCount (S i) - time v frameCount i
             == interval v frameCount) /\
  (forall i j, (i < j)%nat ->
               time v frameCount i < time v frameCount j) /\
  (forall r,
      settled l = Some (Resolved r) ->
      frames r = map (fun i => snapshot (env i) c)
                     (filter (fun i => encoded (env i)) (seq 0 n))).
Proof.
  intros Hn c n l.
  split; [unfold time; cbn; ring |].
  split; [apply interval_pos, Hn |].
  split; [intros i; apply time_step |].
  split; [intros i j Hij; apply time_increasing; assumption |].
  intros r Hr.
  destruct (run_settled frameCount onProgress env v)
    as [(fs & S & -> & _) | (err & j & S & _)];
    fold l in S; rewrite S in Hr; [| discriminate Hr].
  injection Hr as <-. cbn [frames]. apply frames_in_order.
Qed.

Lemma seeks_evenly_spaced_frames_in_order_witness :
  (1 <= 45)%Z /\
  time (mkVideo 1920 1080 (JS.Fin 10)) 45 8
  < time (mkVideo 1920 1080 (JS.Fin 10)) 45 9.
Proof.
  assert (1 <= 45)%Z as H by lia.
  destruct (seeks_evenly_spaced_frames_in_order
              (mkVideo 1920 1080 (JS.Fin 10)) 45 false
              (fun _ => mkIterEnv None None 0 true) H)
    as (_ & _ & _ & Inc & _).
  split; [exact H |]. apply Inc. lia.
Defined.

(** *** The wait for seeks *)

Lemma waited_app (a b : list effect) :
  waited (a ++ b) = (waited a + waited b)%nat.
Proof.
  induction a as [| e a IH]; [reflexivity |].
  destruct e; cbn; rewrite IH; lia.
Qed.

Lemma seek_wait_bound (arrival : option nat) :
  (fst (seek_wait arrival) <= 200)%nat.
Proof.
  unfold seek_wait, seek_timeout. destruct arrival as [ms |]; [| cbn; lia].
  destruct (Nat.ltb_spec ms 200); cbn; lia.
Qed.

Lemma waited_expected
      (frameCount : Z) (onProgress : bool) (env : nat -> iter_env)
      (v : Video) (c : Canvas) (n i : nat) :
  (waited (flat_map (iteration_log frameCount onProgress env v c) (seq i n))
   <= 200 * n)%nat.
Proof.
  revert i. induction n as [| n IH]; intros i; cbn [seq flat_map].
  - cbn. lia.
  - rewrite waited_app. specialize (IH (S i)).
    assert (waited (iteration_log frameCount onProgress env v c i)
            = fst (seek_wait (seeked_after (env i)))) as ->.
    { unfold iteration_log. destruct onProgress; cbn; lia. }
    pose proof (seek_wait_bound (seeked_after (env i))). lia.
Qed.

(** X10: in every run -- whatever the context, the media, the seek
    signals and the exceptions -- the time spent waiting for seeks is at
    most 200 ms per requested frame. *)
Theorem seek_waits_are_bounded
        (frameCount : Z) (onProgress : bool) (env : nat -> iter_env)
        (ctx : bool) (m : media) :
  (waited (log (run frameCount onProgress env ctx m))
   <= 200 * Z.to_nat frameCount)%nat.
Proof.
  destruct ctx; [| cbn; lia].
  destruct m as [| v]; [cbn; lia |].
  destruct (run_decoded frameCount onProgress env v)
    as (l & l' & r & E & _ & ->).
  cbn [log]. rewrite !waited_app.
  pose proof (waited_expected frameCount onProgress env v
                              (onloadedmetadata v) (Z.to_nat frameCount) 0)
    as H.
  rewrite E, waited_app in H. cbn. lia.
Qed.

(** *** The first exception *)

Ltac run_partial :=
  unfold iteration, set_currentTime, await_seeked, drawImage, toBlob,
    createObjectURL, call_onProgress, may_throw, bind, ret, throw, emit,
    extend;
  cbn [in_document log stage_eqb fst snd].

Ltac partial_facts :=
  split; [reflexivity |]; split; [cbn; lia | repeat constructor].

Lemma iteration_throws_before_report
      (frameCount : Z) (onProgress : bool) (env : nat -> iter_env)
      (v : Video) (c : Canvas) (fs : list Blob) (i : nat) (w : World)
      (err : exn) :
  throws onProgress env i = Some err ->
  exists partial,
    iteration frameCount onProgress env v c fs i w
    = (extend w partial, Throw err) /\
    reports partial = [] /\
    (length (seeks partial) <= 1)%nat /\
    Forall (fun e => is_loop_effect e = true) partial.
Proof.
  unfold throws. intros H.
  destruct (seek_wait (seeked_after (env i))) as [ms seeked] eqn:W.
  destruct (fault (env i)) as [[[] err'] |] eqn:F; try discriminate H.
  - injection H as ->. exists [].
    split; [run_partial; rewrite F; cbn; rewrite app_nil_r;
            destruct w; reflexivity | partial_facts].
  - injection H as ->.
    exists [SetCurrentTime (time v frameCount i); SeekWait ms seeked].
    split; [run_partial; rewrite F, W; cbn; rewrite <- ?app_assoc;
            reflexivity | partial_facts].
  - destruct (encoded (env i)) eqn:E; [| discriminate H]. injection H as ->.
    exists [SetCurrentTime (time v frameCount i); SeekWait ms seeked;
            DrawImage (visible (env i)) (canvas_width c) (canvas_height c)].
    split; [run_partial; rewrite F, W, E; cbn; rewrite <- ?app_assoc;
            reflexivity | partial_facts].
  - destruct onProgress; [| discriminate H]. injection H as ->.
    exists [SetCurrentTime (time v frameCount i); SeekWait ms seeked;
            DrawImage (visible (env i)) (canvas_width c) (canvas_height c)].
    split; [run_partial; rewrite F, W; destruct (encoded (env i));
            cbn; rewrite <- ?app_assoc; reflexivity | partial_facts].
Qed.

(** The loop up to its first throwing iteration [j]: the full logs of the
    iterations before [j], then what [j] did before it threw. *)
Lemma for_loop_first_throw
      (frameCount : Z) (onProgress : bool) (env : nat -> iter_env)
      (v : Video) (c : Canvas) (j : nat) (err : exn) :
  throws onProgress env j = Some err ->
  forall (todo i : nat) (fs : list Blob) (w : World),
    (i <= j < i + todo)%nat ->
    (forall k, (i <= k < j)%nat -> throws onProgress env k = None) ->
    exists partial,
      for_loop frameCount onProgress env v c todo i fs w
      = (extend w (flat_map (iteration_log frameCount onProgress env v c)
                            (seq i (j - i)) ++ partial),
         Throw err) /\
      reports partial = [] /\
      (length (seeks partial) <= 1)%nat /\
      Forall (fun e => is_loop_effect e = true) partial.
Proof.
  intros T. induction todo as [| todo IH]; intros i fs w Hj Hmin; [lia |].
  cbn [for_loop]. unfold bind at 1.
  destruct (Nat.eq_dec i j) as [-> | Hne].
  - destruct (iteration_throws_before_report
                frameCount onProgress env v c fs j w err T)
      as (partial & -> & P).
    exists partial. rewrite Nat.sub_diag. cbn [seq flat_map app].
    split; [reflexivity | exact P].
  - rewrite (iteration_completes frameCount onProgress env v c fs i w)
      by (apply Hmin; lia).
    destruct (IH (S i) (fs ++ iteration_frames env c i)
                 (extend w (iteration_log frameCount onProgress env v c i)))
      as (partial & -> & P); [lia | intros k Hk; apply Hmin; lia |].
    exists partial. split; [| exact P].
    rewrite extend_app.
    replace (j - i)%nat with (S (j - S i)) by lia.
    cbn [seq flat_map]. rewrite <- app_assoc. reflexivity.
Qed.

(** X11: when an iteration throws, the run is rejected with the exception
    of the first iteration [j] that throws; the iterations before [j]
    ran in full, iteration [j] reported no progress, and no later
    iteration did anything: the progress reports are exactly those of
    iterations 0 to j-1 and at most j+1 seeks were requested. *)
Theorem first_exception_ends_the_loop
        (v : Video) (frameCount : Z) (env : nat -> iter_env)
        (j : nat) (err : exn) :
  (j < Z.to_nat frameCount)%nat ->
  throws true env j = Some err ->
  (forall k, (k < j)%nat -> throws true env k = None) ->
  let l := log (run frameCount true env true (Decoded v)) in
  settled l = Some (Rejected (Caught err)) /\
  reports l = map (percent frameCount) (seq 0 j) /\
  firstn j (seeks l) = map (time v frameCount) (seq 0 j) /\
  (length (seeks l) <= S j)%nat.
Proof.
  intros Hj T Hmin l.
  destruct (for_loop_first_throw frameCount true env v (onloadedmetadata v)
                                 j err T (Z.to_nat frameCount) 0 []
                                 (extend (mkWorld true [])
                                         [AppendChild; CreateObjectURL]))
    as (partial & L & R & S & P); [lia | intros k Hk; apply Hmin; lia |].
  rewrite Nat.sub_0_r in L.
  assert (l = [AppendChild; CreateObjectURL]
              ++ (flat_map (iteration_log frameCount true env v
                                          (onloadedmetadata v)) (seq 0 j)
                  ++ partial)
              ++ [RemoveChild; RevokeObjectURL;
                  Settle (Rejected (Caught err))]) as ->.
  { unfold l, run, extractFrames, onloadeddata, try_catch. cbn [negb].
    unfold bind at 1. cbn [appendChild initial log app].
    unfold bind at 1. unfold emit at 1. cbn [in_document log app].
    unfold bind at 1.
    change {| in_document := true; log := [AppendChild; CreateObjectURL] |}
      with (extend (mkWorld true []) [AppendChild; CreateObjectURL]).
    rewrite L. cbn. rewrite <- ?app_assoc. reflexivity. }
  assert (Forall (fun e => is_loop_effect e = true)
                 (flat_map (iteration_log frameCount true env v
                                          (onloadedmetadata v)) (seq 0 j)
                  ++ partial)) as Hloop
      by (apply Forall_app; split; [apply expected_loop_only | exact P]).
  split; [| split; [| split]].
  - cbn [app settled]. rewrite (settled_loop_only _ _ Hloop). reflexivity.
  - rewrite !reports_app, reports_expected, R. cbn. rewrite !app_nil_r.
    reflexivity.
  - rewrite !seeks_app, seeks_expected. cbn [seeks app].
    rewrite app_nil_r.
    rewrite firstn_app, firstn_all2
      by (rewrite length_map, length_seq; lia).
    rewrite length_map, length_seq, Nat.sub_diag. cbn [firstn].
    rewrite app_nil_r. reflexivity.
  - rewrite !seeks_app, seeks_expected, !length_app, length_map, length_seq.
    cbn. lia.
Qed.

Lemma first_exception_ends_the_loop_witness :
  let env := fun i => mkIterEnv (if Nat.eqb i 2 then Some (AtDraw, Exn 7)
                                 else None) None i true in
  (2 < Z.to_nat 5)%nat /\
  reports (log (run 5 true env true
                    (Decoded (mkVideo 1920 1080 (JS.Fin 2)))))
  = [20; 40]%Z.
Proof.
  cbv zeta. assert (2 < Z.to_nat 5)%nat as H by (cbn; lia).
  split; [exact H |].
  destruct (first_exception_ends_the_loop
              (mkVideo 1920 1080 (JS.Fin 2)) 5
              (fun i => mkIterEnv (if Nat.eqb i 2 then Some (AtDraw, Exn 7)
                                   else None) None i true)
              2 (Exn 7) H eq_refl)
    as (_ & R & _).
  - intros k Hk. destruct k as [| [| k]]; [reflexivity | reflexivity | lia].
  - rewrite R. reflexivity.
Defined.

End RunFacts.

(** ** Facts about texture preloading and disposal *)

Module TexturesFacts.
Import Textures.

Section Preloading.

Context {Source Texture : Type}.
Variable loader : Source -> option Texture.

Lemma all_some (loads : list (option Texture)) (ts : list Texture) :
  all loads = Some ts <-> loads = map Some ts.
Proof.
  revert ts. induction loads as [| [t |] loads IH]; intros ts; cbn.
  - split.
    + intros H. injection H as <-. reflexivity.
    + intros H. destruct ts; [reflexivity | discriminate H].
  - destruct (all loads) as [ts' |] eqn:E.
    + split.
      * intros H. injection H as <-. cbn. f_equal. apply IH. reflexivity.
      * intros H. destruct ts as [| t0 ts]; [discriminate H |].
        cbn in H. injection H as -> H. apply IH in H. congruence.
    + split; [discriminate |].
      intros H. destruct ts as [| t0 ts]; [discriminate H |].
      cbn in H. injection H as _ H. apply IH in H. discriminate H.
  - split; [discriminate |].
    intros H. destruct ts; discriminate H.
Qed.

Lemma all_none (loads : list (option Texture)) :
  all loads = None <-> In None loads.
Proof.
  induction loads as [| [t |] loads IH]; cbn.
  - split; [discriminate | contradiction].
  - destruct (all loads) as [ts |].
    + split; [discriminate |].
      intros [H | H]; [discriminate H |]. apply IH in H. discriminate H.
    + split; [| reflexivity]. intros _. right. apply IH. reflexivity.
  - split; [| reflexivity]. intros _. left. reflexivity.
Qed.

(** X12: the textures the viewer receives are all or nothing: the [then]
    callback runs only if every frame loads, and then it gets exactly one
    texture per frame, in frame order; if a single frame fails to load it
    never runs. *)
Theorem preload_is_all_or_nothing (frames : list Source) :
  (forall ts,
      preload loader frames = Some ts <->
      map loader frames = map Some ts) /\
  (forall ts,
      preload loader frames = Some ts ->
      length ts = length frames /\
      forall i f, nth_error frames i = Some f ->
                  exists t, loader f = Some t /\ nth_error ts i = Some t) /\
  (preload loader frames = None <->
   exists f, In f frames /\ loader f = None).
Proof.
  unfold preload. split; [| split].
  - intros ts. apply all_some.
  - intros ts H. apply all_some in H. split.
    + apply (f_equal (@length _)) in H. rewrite !length_map in H.
      symmetry. exact H.
    + intros i f Hf.
      apply (f_equal (fun l => nth_error l i)) in H.
      rewrite !nth_error_map, Hf in H. cbn in H.
      destruct (nth_error ts i) as [t |]; [| discriminate H].
      exists t. cbn in H. injection H as H. split; [exact H | reflexivity].
  - rewrite all_none, in_map_iff. split.
    + intros (f & E & I). exists f. split; assumption.
    + intros (f & I & E). exists f. split; assumption.
Qed.

(** *** Disposal *)

Lemma lifecycle_snoc (steps : list (step Source Texture))
      (s : step Source Texture) :
  lifecycle (steps ++ [s]) = run_step (lifecycle steps) s.
Proof. unfold lifecycle. rewrite fold_left_app. reflexivity. Qed.

Lemma disposed_were_current (steps : list (step Source Texture)) :
  (forall x, In x (disposed (lifecycle steps)) ->
             exists ts, In (Fulfilled ts) steps /\ In x ts) /\
  (texturesRef (lifecycle steps) = [] \/
   In (Fulfilled (texturesRef (lifecycle steps))) steps).
Proof.
  induction steps as [| s steps [IHd IHr]] using rev_ind.
  - split; [intros x [] | left; reflexivity].
  - rewrite lifecycle_snoc.
    assert (forall x,
               (exists ts, In (Fulfilled ts) steps /\ In x ts) ->
               exists ts, In (Fulfilled ts) (steps ++ [s]) /\ In x ts)
      as Hweak.
    { intros x (ts & I & J). exists ts. split; [| exact J].
      apply in_or_app. left. exact I. }
    assert (forall x, In x (texturesRef (lifecycle steps)) ->
                      exists ts, In (Fulfilled ts) (steps ++ [s]) /\ In x ts)
      as Hcur.
    { intros x I. destruct IHr as [E | F].
      - rewrite E in I. contradiction.
      - eexists. split; [apply in_or_app; left; exact F | exact I]. }
    assert (texturesRef (lifecycle steps) = [] \/
            In (Fulfilled (texturesRef (lifecycle steps))) (steps ++ [s]))
      as Hkeep.
    { destruct IHr as [E | F]; [left; exact E |].
      right. apply in_or_app. left. exact F. }
    destruct s as [[| f frames] | loaded |]; cbn.
    + split; [intros x I; apply Hweak, IHd, I | exact Hkeep].
    + split; [| left; reflexivity].
      intros x I. apply in_app_or in I.
      destruct I as [I | I]; [apply Hweak, IHd, I | apply Hcur, I].
    + split; [intros x I; apply Hweak, IHd, I |].
      right. apply in_or_app. right. left. reflexivity.
    + split; [| exact Hkeep].
      intros x I. apply in_app_or in I.
      destruct I as [I | I]; [apply Hweak, IHd, I | apply Hcur, I].
Qed.

(** X13: [dispose] is only ever called on textures that were loaded; when
    the textures arrive before the effect's cleanup, the cleanup disposes
    each of them, in order; when the cleanup runs first (the viewer is
    closed while the textures are still loading) the textures arrive
    afterwards, are stored, and are not disposed. *)
Theorem texture_disposal
        (before : list (step Source Texture)) (loaded : list Texture) :
  (forall x, In x (disposed (lifecycle before)) ->
             exists ts, In (Fulfilled ts) before /\ In x ts) /\
  disposed (lifecycle (before ++ [Fulfilled loaded; Cleanup]))
  = disposed (lifecycle before) ++ loaded /\
  disposed (lifecycle (before ++ [Cleanup; Fulfilled loaded]))
  = disposed (lifecycle (before ++ [Cleanup])) /\
  texturesRef (lifecycle (before ++ [Cleanup; Fulfilled loaded])) = loaded.
Proof.
  split; [apply disposed_were_current |].
  change [Fulfilled loaded; Cleanup]
    with ([@Fulfilled Source Texture loaded] ++ [Cleanup]).
  change [Cleanup; Fulfilled loaded]
    with ([@Cleanup Source Texture] ++ [Fulfilled loaded]).
  rewrite !app_assoc, !lifecycle_snoc. cbn.
  repeat split; reflexivity.
Qed.

End Preloading.

End TexturesFacts.

(** ** Facts about the first version of the viewer *)

Module LegacyFacts.
Import Legacy JSFacts.

Lemma normalized_bounds (c : Q) :
  -30 <= c -> c <= 30 ->
  0 <= (c + 30) / (2 * 30) /\ (c + 30) / (2 * 30) <= 1.
Proof.
  intros L U. unfold Qdiv. change (/ (2 * 30)) with (1 # 60). split; lra.
Qed.

Lemma floor_scaled (x : Q) (n : Z) :
  (1 <= n)%Z -> 0 <= x -> x <= 1 ->
  (0 <= Qfloor (x * inject_Z n) <= n)%Z.
Proof.
  intros Hn X0 X1. pose proof (inject_Z_pos n Hn) as Hq.
  assert (inject_Z 0 <= x * inject_Z n) as A
      by (change (inject_Z 0) with 0; apply Qmult_le_0_compat; lra).
  assert (x * inject_Z n <= inject_Z n) as B by nra.
  apply Qfloor_resp_le in A, B. rewrite Qfloor_Z in A, B.
  clear - A B. lia.
Qed.

(** X14: in the first version, which maps the sensor angle straight to a
    frame, the index is valid for every reading: 0 for -30 degrees or
    less, the last frame for 30 degrees or more, the middle frame
    [floor(length/2)] for no reading, and it never decreases as the angle
    grows. *)
Theorem legacy_orientation_index (length : Z) :
  (1 <= length)%Z ->
  (forall gamma,
      (0 <= handleOrientation gamma length <= length - 1)%Z) /\
  (forall g, g <= -30 ->
             handleOrientation (Some (JS.Fin g)) length = 0%Z) /\
  (forall g, 30 <= g ->
             handleOrientation (Some (JS.Fin g)) length = (length - 1)%Z) /\
  handleOrientation None length = Z.min (length - 1) (length / 2) /\
  (forall g g', g <= g' ->
                (handleOrientation (Some (JS.Fin g)) length
                 <= handleOrientation (Some (JS.Fin g')) length)%Z).
Proof.
  intros Hn. pose proof (inject_Z_pos length Hn) as Hq.
  assert (forall gamma, exists c,
             Input.clamped 30 gamma = JS.Fin c /\ -30 <= c /\ c <= 30 /\
             handleOrientation gamma length
             = Z.min (length - 1)
                     (Qfloor ((c + 30) / (2 * 30) * inject_Z length)))
    as Hc.
  { intros gamma.
    destruct (InputFacts.clamped_spec 30 gamma ltac:(reflexivity))
      as (c & E & L & U & _).
    exists c. split; [exact E |]. split; [exact L |]. split; [exact U |].
    unfold handleOrientation. rewrite E. reflexivity. }
  assert (forall g, exists c,
             Input.clamped 30 (Some (JS.Fin g)) = JS.Fin c /\
             (g <= -30 -> c == -30) /\ (30 <= g -> c == 30) /\
             (-30 <= g -> g <= 30 -> c == g) /\ -30 <= c /\ c <= 30)
    as Hg.
  { intros g.
    destruct (InputFacts.clamped_spec 30 (Some (JS.Fin g)) ltac:(reflexivity))
      as (c & E & L & U & _ & _ & _ & H).
    destruct (H g eq_refl) as (A & B & C).
    exists c. repeat split; assumption. }
  split; [| split; [| split; [| split]]].
  - intros gamma. destruct (Hc gamma) as (c & _ & L & U & ->).
    destruct (normalized_bounds c L U) as [N0 N1].
    pose proof (floor_scaled _ length Hn N0 N1) as F.
    clear - F Hn. lia.
  - intros g Hlow. destruct (Hg g) as (c & E & A & _).
    unfold handleOrientation. rewrite E. cbn [JS.finite_value].
    unfold JS.Math_min, JS.Math_floor.
    rewrite (Qfloor_comp _ (inject_Z 0))
      by (rewrite (A Hlow); change (inject_Z 0) with 0; field).
    rewrite Qfloor_Z. lia.
  - intros g Hhigh. destruct (Hg g) as (c & E & _ & B & _).
    unfold handleOrientation. rewrite E. cbn [JS.finite_value].
    unfold JS.Math_min, JS.Math_floor.
    rewrite (Qfloor_comp _ (inject_Z length))
      by (rewrite (B Hhigh); field).
    rewrite Qfloor_Z. lia.
  - unfold handleOrientation, JS.Math_min, JS.Math_floor. f_equal.
    rewrite Zdiv_Qdiv. apply Qfloor_comp.
    cbn [Input.clamped Input.gamma_or_zero Input.min_with Input.max_with
         JS.finite_value].
    assert (Qmax (- 30) (Qmin 30 0) == 0) as ->
        by (vm_compute; reflexivity).
    change (inject_Z 2) with 2. field.
  - intros g g' Hle.
    destruct (Hg g) as (c & E & A & B & C & L & U).
    destruct (Hg g') as (c' & E' & A' & B' & C' & L' & U').
    unfold handleOrientation. rewrite E, E'. cbn [JS.finite_value].
    assert (c <= c') as Hcc.
    { destruct (Qlt_le_dec g (-30)) as [G1 | G1].
      - rewrite (A (Qlt_le_weak _ _ G1)). exact L'.
      - destruct (Qlt_le_dec 30 g') as [G2 | G2].
        + rewrite (B' (Qlt_le_weak _ _ G2)). exact U.
        + destruct (Qlt_le_dec 30 g) as [G3 | G3]; [lra |].
          destruct (Qlt_le_dec g' (-30)) as [G4 | G4]; [lra |].
          rewrite (C G1 G3), (C' G4 G2). exact Hle. }
    unfold JS.Math_min, JS.Math_floor.
    assert ((c + 30) / (2 * 30) * inject_Z length
            <= (c' + 30) / (2 * 30) * inject_Z length) as Hs.
    { apply Qmult_le_compat_r; [| lra].
      unfold Qdiv. change (/ (2 * 30)) with (1 # 60). lra. }
    apply Qfloor_resp_le in Hs. clear - Hs. lia.
Qed.

Lemma legacy_orientation_index_witness :
  (1 <= 45)%Z /\
  (0 <= handleOrientation (Some (JS.Fin 12)) 45 <= 45 - 1)%Z.
Proof.
  assert (1 <= 45)%Z as H by lia.
  split; [exact H |].
  exact (proj1 (legacy_orientation_index 45 H) (Some (JS.Fin 12))).
Defined.

(** X15: in the first version the pointer handler gives a valid index
    while the pointer is over the window, and a negative one -- no frame
    at all -- when the pointer's x is negative: there is no lower clamp. *)
Theorem legacy_pointer_index (clientX innerWidth : Q) (length : Z) :
  (1 <= length)%Z -> 0 < innerWidth ->
  (0 <= clientX -> clientX <= innerWidth ->
   (0 <= handleMouseMove clientX innerWidth length <= length - 1)%Z) /\
  (clientX < 0 ->
   (handleMouseMove clientX innerWidth length < 0)%Z).
Proof.
  intros Hn Hw. pose proof (inject_Z_pos length Hn) as Hq.
  unfold handleMouseMove, JS.Math_min, JS.Math_floor. split.
  - intros X0 X1.
    assert (0 <= clientX / innerWidth) as A
        by (apply Qle_shift_div_l; lra).
    assert (clientX / innerWidth <= 1) as B
        by (apply Qle_shift_div_r; lra).
    pose proof (floor_scaled _ length Hn A B) as F. clear - F Hn. lia.
  - intros Xneg.
    assert (clientX / innerWidth < 0) as A
        by (apply Qlt_shift_div_r; lra).
    assert (clientX / innerWidth * inject_Z length < inject_Z 0) as B.
    { change (inject_Z 0) with 0.
      revert A. generalize (clientX / innerWidth). intros q A. nra. }
    pose proof (Qfloor_le (clientX / innerWidth * inject_Z length)) as C.
    assert (inject_Z (Qfloor (clientX / innerWidth * inject_Z length))
            < inject_Z 0) as D by lra.
    rewrite <- Zlt_Qlt in D. clear - D Hn. lia.
Qed.

Lemma legacy_pointer_index_witness :
  (1 <= 45)%Z /\ 0 < 1280 /\
  (handleMouseMove (-5) 1280 45 < 0)%Z.
Proof.
  assert (1 <= 45)%Z as H by lia.
  assert (0 < 1280) as W by reflexivity.
  split; [exact H |]. split; [exact W |].
  apply (proj2 (legacy_pointer_index (-5) 1280 45 H W)). reflexivity.
Defined.

End LegacyFacts.

(** ** Facts about the application *)

Module AppFacts.
Import App SamplerFacts.








(** *** Reachable states *)






End AppFacts.
